(** * A shallow embedding of the BN254 arithmetic of milagro-crypto-js

    Limbs, field elements, curve points and the pairing loop parameters
    of the JavaScript sources, translated function by function.  JS
    numbers that stay integral are modelled as [Z]; the bit operators
    [&], [|], [^], [<<], [>>] first convert their operands with ToInt32,
    which is written out below. *)

From Stdlib Require Import ZArith List Lia Bool Eqdep_dec.
Import ListNotations.
Open Scope Z_scope.

(** ** JavaScript 32-bit integer operators *)

(** ECMAScript ToInt32: the value modulo 2^32, read as a signed 32-bit word. *)
Definition ToInt32 (z : Z) : Z :=
  let m := z mod 2 ^ 32 in if m <? 2 ^ 31 then m else m - 2 ^ 32.

Definition js_and (a b : Z) : Z := Z.land (ToInt32 a) (ToInt32 b).
Definition js_or (a b : Z) : Z := Z.lor (ToInt32 a) (ToInt32 b).
Definition js_xor (a b : Z) : Z := Z.lxor (ToInt32 a) (ToInt32 b).
Definition js_not (a : Z) : Z := Z.lnot (ToInt32 a).
(** [a << k]: the shift count is taken modulo 32 and the result wraps. *)
Definition js_shl (a k : Z) : Z := ToInt32 (Z.shiftl (ToInt32 a) (k mod 32)).
(** [a >> k]: arithmetic shift of the signed word. *)
Definition js_shr (a k : Z) : Z := Z.shiftr (ToInt32 a) (k mod 32).

(** ** BIG: 11 limbs of 24 bits (part_005)

    A BIG is its limb array [w], least significant limb first. *)

Definition CHUNK : Z := 32.
Definition MODBYTES : Z := 32.
Definition BASEBITS : Z := 24.
Definition NLEN : Z := 1 + (8 * MODBYTES - 1) / BASEBITS.
Definition BMASK : Z := js_shl 1 BASEBITS - 1.

Definition BIG := list Z.

(** The integer a limb array stands for. *)
Fixpoint big_value (w : BIG) : Z :=
  match w with
  | [] => 0
  | x :: w' => x + 2 ^ BASEBITS * big_value w'
  end.

(** [norm]: the carry loop over the NLEN-1 low limbs; the top limb only
    absorbs the last carry.  The method returns [this]. *)
Fixpoint norm_aux (carry : Z) (w : BIG) : BIG :=
  match w with
  | [] => []
  | [x] => [x + carry]
  | x :: w' =>
      let d := x + carry in
      js_and d BMASK :: norm_aux (js_shr d BASEBITS) w'
  end.

Definition norm (w : BIG) : BIG := norm_aux 0 w.

(** [muladd(x, y, c, i)]: returns the new limb [i] and the carry
    [(prod - w[i]) * 2^-24], an exact division of a multiple of 2^24. *)
Definition muladd (x y c wi : Z) : Z * Z :=
  let prod := x * y + c + wi in
  let wi' := js_and prod BMASK in
  (wi', (prod - wi') / 2 ^ BASEBITS).

(** [pmul(c)]: each limb is cleared and then rebuilt by [muladd]. *)
Fixpoint pmul_aux (c carry : Z) (w : BIG) : BIG * Z :=
  match w with
  | [] => ([], carry)
  | ak :: w' =>
      let '(wi, carry') := muladd ak c carry 0 in
      let '(r, cr) := pmul_aux c carry' w' in
      (wi :: r, cr)
  end.

Definition pmul (w : BIG) (c : Z) : BIG * Z := pmul_aux c 0 w.

Definition set_low (w : BIG) (f : Z -> Z) : BIG :=
  match w with
  | [] => []
  | x :: w' => f x :: w'
  end.

(** [inc(i)] and [dec(i)]: normalise, then change the lowest limb. *)
Definition inc (w : BIG) (i : Z) : BIG := set_low (norm w) (fun x => x + i).
Definition dec (w : BIG) (i : Z) : BIG := set_low (norm w) (fun x => x - i).

(** The loop [while (c !== 0) { c = Math.floor(c / 2); bts++; }] with a
    fuel bound; [None] when the loop has not stopped within the fuel
    (for a negative [c] it never stops). *)
Fixpoint halvings (fuel : nat) (c : Z) : option Z :=
  match fuel with
  | O => None
  | S f => if c =? 0 then Some 0 else option_map Z.succ (halvings f (c / 2))
  end.

(** [while (k >= 0 && t.w[k] === 0) k--] over the limbs read from the top;
    [rl] is the reversed limb array and [k] the index of its head. *)
Fixpoint top_limb (k : Z) (rl : list Z) : option (Z * Z) :=
  match rl with
  | [] => None
  | x :: r => if x =? 0 then top_limb (k - 1) r else Some (k, x)
  end.

Definition nbits (w : BIG) : option Z :=
  let t := norm w in
  match top_limb (NLEN - 1) (rev t) with
  | None => Some 0
  | Some (k, c) => option_map (fun h => BASEBITS * k + h) (halvings 64 c)
  end.

Definition limb (w : BIG) (i : Z) : Z := nth (Z.to_nat i) w 0.

(** [bit(n)]. *)
Definition bit (w : BIG) (n : Z) : Z :=
  if js_and (limb w (n / BASEBITS)) (js_shl 1 (n mod BASEBITS)) >? 0 then 1 else 0.

(** [parity()]. *)
Definition parity (w : BIG) : Z := js_and (limb w 0) 1.

(** ** ROM_CURVE constants (rom_curve.js) *)

Definition CURVE_B_I : Z := 2.
Definition CURVE_Bnx : BIG := [0x1; 0x0; 0x4080; 0x0; 0x0; 0x0; 0x0; 0x0; 0x0; 0x0; 0x0].
Definition CURVE_Order : BIG :=
  [0xD; 0x0; 0x10A100; 0x0; 0x9F8000; 0x7FF; 0x800000; 0xBA344D; 0x1; 0x648240; 0x2523].
Definition CURVE_Gx : BIG :=
  [0x12; 0x0; 0x13A700; 0x0; 0x210000; 0x861; 0x800000; 0xBA344D; 0x1; 0x648240; 0x2523].
Definition CURVE_Gy : BIG := [0x1; 0x0; 0x0; 0x0; 0x0; 0x0; 0x0; 0x0; 0x0; 0x0; 0x0].
Definition CURVE_Pxa : BIG :=
  [0x3FB2B; 0x4224C8; 0xD91EE; 0x4898BF; 0x648BBB; 0xEDB6A4; 0x7E8C61; 0xEB8D8C; 0x9EB62F; 0x10BB51; 0x61A].
Definition CURVE_Pxb : BIG :=
  [0xD54CF3; 0x34C1E7; 0xB70D8C; 0xAE3784; 0x4D746B; 0xAA5B1F; 0x8C5982; 0x310AA7; 0x737833; 0xAAF9BA; 0x516].
Definition CURVE_Pya : BIG :=
  [0xCD2B9A; 0xE07891; 0xBD19F0; 0xBDBE09; 0xBD0AE6; 0x822329; 0x96698C; 0x9A90E0; 0xAF9343; 0x97A06B; 0x218].
Definition CURVE_Pyb : BIG :=
  [0x3ACE9B; 0x1AEC6B; 0x578A2D; 0xD739C9; 0x9006FF; 0x8D37B0; 0x56F5F3; 0x8F6D44; 0x8B1526; 0x2B0E7C; 0xEBB].

(** ** PAIR.lbits (pair.js)

    [lbits(n3, n)] fills [n] and [n3] and returns [n3.nbits()]; the
    result is the triple (returned value, n3, n). *)
Definition lbits : option Z * BIG * BIG :=
  let n := fst (pmul CURVE_Bnx 6) in
  let n := dec n 2 in
  let n := norm n in
  let n3 := fst (pmul n 3) in
  let n3 := norm n3 in
  (nbits n3, n3, n).

(** The digit the Miller loops of [ate], [ate2] and [another] use at
    index [i]: [bt = n3.bit(i) - n.bit(i)]. *)
Definition loop_digit (i : Z) : Z :=
  let '(_, n3, n) := lbits in bit n3 i - bit n i.

(** ** ROM_FIELD.Modulus *)

(** The BN parameter [u]: the ROM stores its absolute value [CURVE_Bnx];
    the curve order [CURVE_Order] is [r(u)] for the negative [u] (lemma
    [CURVE_Order_bn] below). *)
Definition BN_u : Z := - big_value CURVE_Bnx.

Fixpoint to_limbs (n : nat) (z : Z) : BIG :=
  match n with
  | O => []
  | S n' => z mod 2 ^ BASEBITS :: to_limbs n' (z / 2 ^ BASEBITS)
  end.

(** Modelled from the spec: ROM_FIELD.Modulus (rom_field.js is not among
    the sources).  The spec fixes the field as the 254-bit prime of the
    BN254 parameterisation with parameter [u]; a BN prime is
    [36u^4 + 36u^3 + 24u^2 + 6u + 1], written in NLEN limbs. *)
Definition Modulus : BIG :=
  to_limbs (Z.to_nat NLEN)
    (36 * BN_u ^ 4 + 36 * BN_u ^ 3 + 24 * BN_u ^ 2 + 6 * BN_u + 1).

Definition p : Z := big_value Modulus.

(** ** More BIG methods (part_005) *)

Definition js_ushr (a k : Z) : Z := Z.shiftr (a mod 2 ^ 32) (k mod 32).

(** [add], [sub] and [rsub]: limb by limb, without carries. *)
Definition big_add (w y : BIG) : BIG := map (fun '(a, b) => a + b) (combine w y).
Definition big_sub (w y : BIG) : BIG := map (fun '(a, b) => a - b) (combine w y).
Definition big_rsub (w x : BIG) : BIG := map (fun '(a, b) => b - a) (combine w x).

(** [cmove(b, d)]: [c = ~(d - 1)], then [w[i] ^= (w[i] ^ b.w[i]) & c]. *)
Definition cmove (w b : BIG) (d : Z) : BIG :=
  let c := js_not (d - 1) in
  map (fun '(wi, bi) => js_xor wi (js_and (js_xor wi bi) c)) (combine w b).

(** [fshl(k)]: every limb takes its own bits shifted up and the bits the
    limb below shifts out; limbs below the top are masked, the top is not.
    [prev] is the old value of the limb below.  The returned excess is
    not used by the callers modelled here. *)
Fixpoint fshl_aux (k prev : Z) (w : BIG) : BIG :=
  match w with
  | [] => []
  | [x] => [js_or (js_shl x k) (js_shr prev (BASEBITS - k))]
  | x :: w' => js_or (js_and (js_shl x k) BMASK) (js_shr prev (BASEBITS - k)) :: fshl_aux k x w'
  end.

Definition fshl (w : BIG) (k : Z) : BIG :=
  match w with
  | [] => []
  | x :: w' => js_and (js_shl x k) BMASK :: fshl_aux k x w'
  end.

(** [BIG.ssn(r, a, m)]: shifts [m] right by one bit in place, writes
    [r = a - m] with the carries propagated, and returns bit 31 of the top
    limb of [r].  The result is (new r, new m, returned bit). *)
Fixpoint ssn_aux (carry : Z) (a m : BIG) : BIG * BIG * Z :=
  match a, m with
  | [an], [mn] =>
      let mn' := js_shr mn 1 in
      let rn := an - mn' + carry in
      ([rn], [mn'], js_and (js_shr rn (CHUNK - 1)) 1)
  | ai :: a', mi :: ((mi1 :: _) as m') =>
      let mi' := js_or (js_shr mi 1) (js_and (js_shl mi1 (BASEBITS - 1)) BMASK) in
      let ri := ai - mi' + carry in
      let '(r, m'', b) := ssn_aux (js_shr ri BASEBITS) a' m' in
      (js_and ri BMASK :: r, mi' :: m'', b)
  | _, _ => ([], [], 0)
  end.

Definition ssn (a m : BIG) : BIG * BIG * Z := ssn_aux 0 a m.

Definition set_top (w : BIG) (g : Z -> Z) : BIG :=
  rev (set_low (rev w) g).

(** ** FP (fp.js): a BIG with its excess bound [XES] *)

Definition MODBITS : Z := 254.
Definition TBITS : Z := MODBITS mod BASEBITS.
Definition FEXCESS : Z := js_shl 1 10 - 1.

Record FP := mkFP { f : BIG; XES : Z }.

(** [FP.logb2(v)]: smear the highest bit down, then count the bits. *)
Definition logb2 (v0 : Z) : Z :=
  let v := js_or v0 (js_ushr v0 1) in
  let v := js_or v (js_ushr v 2) in
  let v := js_or v (js_ushr v 4) in
  let v := js_or v (js_ushr v 8) in
  let v := js_or v (js_ushr v 16) in
  let v := v - js_and (js_ushr v 1) 0x55555555 in
  let v := js_and v 0x33333333 + js_and (js_ushr v 2) 0x33333333 in
  js_ushr (js_and (v + js_ushr v 4) 0xF0F0F0F * 0x1010101) 24.

(** [FP.quo(n, m)]: a quotient estimate from the top bits of [n] and [m]. *)
Definition quo (n m : BIG) : Z :=
  let hb := js_shr CHUNK 1 in
  let '(num, den) :=
    if TBITS <? hb then
      let sh := hb - TBITS in
      (js_or (js_shl (limb n (NLEN - 1)) sh) (js_shr (limb n (NLEN - 2)) (BASEBITS - sh)),
       js_or (js_shl (limb m (NLEN - 1)) sh) (js_shr (limb m (NLEN - 2)) (BASEBITS - sh)))
    else (limb n (NLEN - 1), limb m (NLEN - 1)) in
  num / (den + 1).

(** The constant-time loop of [reduce]: [sb] rounds of [ssn] and [cmove].
    The result is (f, r, m). *)
Fixpoint reduce_loop (sb : nat) (f r m : BIG) : BIG * BIG * BIG :=
  match sb with
  | O => (f, r, m)
  | S sb' =>
      let '(r', m', sr) := ssn f m in
      reduce_loop sb' (cmove f r' (1 - sr)) r' m'
  end.

(** [FP.reduce()]. *)
Definition reduce (x : FP) : FP :=
  let m := Modulus in
  let r := Modulus in
  let fx := norm (f x) in
  let '(fx, r, sb) :=
    if XES x >? 16 then
      let q := quo fx m in
      let '(r, carry) := pmul r q in
      let r := set_top r (fun t => t + js_shl carry BASEBITS) in
      (norm (big_sub fx r), r, 2)
    else (fx, r, logb2 (XES x - 1)) in
  let m := fshl m sb in
  let '(fx, _, _) := reduce_loop (Z.to_nat sb) fx r m in
  mkFP fx 1.

(** [FP.norm()]. *)
Definition fp_norm (x : FP) : FP := mkFP (norm (f x)) (XES x).

Section FP_ops.

(** The limbs of a Montgomery product [FP.mod(BIG.mul(a, b))], of a
    Montgomery square [FP.mod(BIG.sqr(a))] and of the Montgomery form of
    a small integer ([new FP(c)]) are taken as given functions: the excess
    bookkeeping of the operations below does not look at them. *)
Variable mul_limbs : BIG -> BIG -> BIG.
Variable sqr_limbs : BIG -> BIG.
Variable nres_limbs : Z -> BIG.

(** [add(b)]: limb-wise sum, excesses added, reduce past FEXCESS. *)
Definition fp_add (x b : FP) : FP :=
  let y := mkFP (big_add (f x) (f b)) (XES x + XES b) in
  if XES y >? FEXCESS then reduce y else y.

(** [neg()]: [f = (Modulus << sb) - f] with [sb = logb2(XES - 1)]. *)
Definition fp_neg (x : FP) : FP :=
  let sb := logb2 (XES x - 1) in
  let m := fshl Modulus sb in
  let y := mkFP (big_rsub (f x) m) (js_shl 1 sb + 1) in
  if XES y >? FEXCESS then reduce y else y.

(** [sub(b)]: [this.add(new FP(b).neg())]. *)
Definition fp_sub (x b : FP) : FP := fp_add x (fp_neg b).

(** [mul(b)] for a [b] that is not [this]. *)
Definition fp_mul (x b : FP) : FP :=
  let x := if XES x * XES b >? FEXCESS then reduce x else x in
  mkFP (mul_limbs (f x) (f b)) 2.

(** [sqr()]. *)
Definition fp_sqr (x : FP) : FP :=
  let x := if XES x * XES x >? FEXCESS then reduce x else x in
  mkFP (sqr_limbs (f x)) 2.

(** [imul(c)]: a limb-wise [pmul] while the excess allows it, a full
    multiplication by [new FP(c)] otherwise, and a negation for [c < 0]. *)
Definition fp_imul (x : FP) (c0 : Z) : FP :=
  let s := c0 <? 0 in
  let c := if s then - c0 else c0 in
  let y :=
    if XES x * c <=? FEXCESS then mkFP (fst (pmul (f x) c)) (XES x * c)
    else fp_mul x (mkFP (nres_limbs c) 2) in
  if s then fp_norm (fp_neg y) else y.

End FP_ops.

(** ** Predicates on limbs used in the statements *)

Definition int32_range (z : Z) : Prop := - 2 ^ 31 <= z < 2 ^ 31.

(** Every limb in [0, 2^24): a normalised BIG. *)
Definition limbs24 (w : BIG) : Prop := Forall (fun x => 0 <= x < 2 ^ 24) w.

(** ** Byte conversions and comparison of BIGs (part_005) *)

(** [fshr(k)]: limb [i] takes the low bits of limb [i+1]; the top limb is
    shifted arithmetically.  The second component is the returned
    shifted-out part. *)
Fixpoint fshr_aux (k : Z) (w : BIG) : BIG :=
  match w with
  | [] => []
  | [x] => [js_shr x k]
  | x :: ((y :: _) as w') =>
      js_or (js_shr x k) (js_and (js_shl y (BASEBITS - k)) BMASK) :: fshr_aux k w'
  end.

Definition fshr (w : BIG) (k : Z) : BIG * Z :=
  (fshr_aux k w, js_and (limb w 0) (js_shl 1 k - 1)).

(** [tobytearray(b, 0)]: [b[i] = c.w[0] & 0xff; c.fshr(8)] for [i] from
    [MODBYTES-1] down to 0, on a normalised copy [c]; the bytes are
    returned in array order. *)
Fixpoint tobytes_aux (n : nat) (c : BIG) (acc : list Z) : list Z :=
  match n with
  | O => acc
  | S n' => tobytes_aux n' (fst (fshr c 8)) (js_and (limb c 0) 0xff :: acc)
  end.

Definition toBytes (w : BIG) : list Z := tobytes_aux (Z.to_nat MODBYTES) (norm w) [].

(** [frombytearray(b, n)]: [m.fshl(8); m.w[0] += b[i+n] & 0xff] for the
    [MODBYTES] bytes from [n]; a missing byte reads [undefined], and
    [undefined & 0xff] is 0. *)
Fixpoint frombytes_aux (bs : list Z) (m : BIG) : BIG :=
  match bs with
  | [] => m
  | bi :: bs' => frombytes_aux bs' (set_low (fshl m 8) (fun w0 => w0 + js_and bi 0xff))
  end.

Definition BIG_zero : BIG := repeat 0 (Z.to_nat NLEN).

Definition frombytearray (b : list Z) (n : nat) : BIG :=
  frombytes_aux (map (fun i => nth (i + n) b 0) (seq 0 (Z.to_nat MODBYTES))) BIG_zero.

Definition fromBytes (b : list Z) : BIG := frombytearray b 0.

(** [BIG.comp(a, b)]: the first differing limb from the top decides. *)
Fixpoint comp_rev (ra rb : list Z) : Z :=
  match ra, rb with
  | x :: ra', y :: rb' => if x =? y then comp_rev ra' rb' else if x >? y then 1 else -1
  | _, _ => 0
  end.

Definition comp (a b : BIG) : Z := comp_rev (rev a) (rev b).

(** The integer a byte array stands for, most significant byte first, each
    entry read modulo 256 (as [& 0xff] reads it). *)
Definition be_value (bs : list Z) : Z := fold_left (fun acc c => acc * 256 + c mod 256) bs 0.

(** ** Value-level view of FP

    An FP denotes the element of Z/pZ that [redc] returns.  The curve code
    only combines FPs through [add], [sub], [rsub], [neg], [mul], [sqr],
    [imul], [norm] and [reduce]; on the denoted element these are the field
    operations, and [norm] and [reduce] leave it unchanged.  The group law
    below is written over this view, operation by operation as in the
    source. *)
Definition Fp : Type := { z : Z | z mod p = z }.

Definition Fp_of_Z (z : Z) : Fp :=
  exist _ (z mod p) (Z.mod_mod z p ltac:(vm_compute; intro Hp; discriminate Hp)).

Definition Fp_val (a : Fp) : Z := proj1_sig a.

Definition Fp_zero : Fp := Fp_of_Z 0.
Definition Fp_one : Fp := Fp_of_Z 1.
Definition Fp_add (a b : Fp) : Fp := Fp_of_Z (Fp_val a + Fp_val b).
Definition Fp_mul (a b : Fp) : Fp := Fp_of_Z (Fp_val a * Fp_val b).
Definition Fp_opp (a : Fp) : Fp := Fp_of_Z (- Fp_val a).
Definition Fp_sub (a b : Fp) : Fp := Fp_of_Z (Fp_val a - Fp_val b).
(** [sqr]: [this*this]; [imul(c)]: [c*this]; [rsub(b)]: [b - this]. *)
Definition Fp_sqr (a : Fp) : Fp := Fp_mul a a.
Definition Fp_imul (a : Fp) (c : Z) : Fp := Fp_of_Z (Fp_val a * c).
Definition Fp_rsub (a b : Fp) : Fp := Fp_sub b a.
(** [iszilch] after [reduce], and [equals] after [reduce]. *)
Definition Fp_iszilch (a : Fp) : bool := Fp_val a =? 0.
Definition Fp_equals (a b : Fp) : bool := Fp_val a =? Fp_val b.

(** Natural powers, used to write polynomial identities over [Fp]. *)
Fixpoint Fp_pow (a : Fp) (n : nat) : Fp :=
  match n with
  | O => Fp_one
  | S n' => Fp_mul a (Fp_pow a n')
  end.

(** ** ECP points in projective coordinates (part_004) *)

Module ECP.

Record t := mk { x : Fp; y : Fp; z : Fp }.

(** The constructor: [x = 0, y = 1, z = 0], the point at infinity. *)
Definition new : t := mk (Fp_of_Z 0) (Fp_of_Z 1) (Fp_of_Z 0).

(** [is_infinity]: [x.iszilch() && z.iszilch()]. *)
Definition is_infinity (P : t) : bool := Fp_iszilch (x P) && Fp_iszilch (z P).

(** [equals(Q)]: [x*Q.z == Q.x*z] and [y*Q.z == Q.y*z]. *)
Definition equals (P Q : t) : bool :=
  Fp_equals (Fp_mul (x P) (z Q)) (Fp_mul (x Q) (z P)) &&
  Fp_equals (Fp_mul (y P) (z Q)) (Fp_mul (y Q) (z P)).

(** [neg]: [y.neg(); y.norm()]. *)
Definition neg (P : t) : t := mk (x P) (Fp_opp (y P)) (z P).

(** [dbl], statement by statement; [z'] is [this.z] once overwritten. *)
Definition dbl (P : t) : t :=
  let t0 := Fp_sqr (y P) in
  let t1 := Fp_mul (y P) (z P) in
  let t2 := Fp_sqr (z P) in
  let z' := Fp_add t0 t0 in
  let z' := Fp_add z' z' in
  let z' := Fp_add z' z' in
  let t2 := Fp_imul t2 (3 * CURVE_B_I) in
  let x3 := Fp_mul t2 z' in
  let y3 := Fp_add t0 t2 in
  let z' := Fp_mul z' t1 in
  let t1 := Fp_add t2 t2 in
  let t2 := Fp_add t2 t1 in
  let t0 := Fp_sub t0 t2 in
  let y3 := Fp_mul y3 t0 in
  let y3 := Fp_add y3 x3 in
  let t1 := Fp_mul (x P) (y P) in
  let x' := Fp_mul t0 t1 in
  let x' := Fp_add x' x' in
  mk x' y3 z'.

(** [add(Q)], statement by statement; every read of [this] and [Q] comes
    before the final writes, so [P.add(P)] is [add P P]. *)
Definition add (P Q : t) : t :=
  let b := 3 * CURVE_B_I in
  let t0 := Fp_mul (x P) (x Q) in
  let t1 := Fp_mul (y P) (y Q) in
  let t2 := Fp_mul (z P) (z Q) in
  let t3 := Fp_add (x P) (y P) in
  let t4 := Fp_add (x Q) (y Q) in
  let t3 := Fp_mul t3 t4 in
  let t4 := Fp_add t0 t1 in
  let t3 := Fp_sub t3 t4 in
  let t4 := Fp_add (y P) (z P) in
  let x3 := Fp_add (y Q) (z Q) in
  let t4 := Fp_mul t4 x3 in
  let x3 := Fp_add t1 t2 in
  let t4 := Fp_sub t4 x3 in
  let x3 := Fp_add (x P) (z P) in
  let y3 := Fp_add (x Q) (z Q) in
  let x3 := Fp_mul x3 y3 in
  let y3 := Fp_add t0 t2 in
  let y3 := Fp_rsub y3 x3 in
  let x3 := Fp_add t0 t0 in
  let t0 := Fp_add t0 x3 in
  let t2 := Fp_imul t2 b in
  let z3 := Fp_add t1 t2 in
  let t1 := Fp_sub t1 t2 in
  let y3 := Fp_imul y3 b in
  let x3 := Fp_mul y3 t4 in
  let t2 := Fp_mul t3 t1 in
  let x3 := Fp_rsub x3 t2 in
  let y3 := Fp_mul y3 t0 in
  let t1 := Fp_mul t1 z3 in
  let y3 := Fp_add y3 t1 in
  let t0 := Fp_mul t0 t3 in
  let z3 := Fp_mul z3 t4 in
  let z3 := Fp_add z3 t0 in
  mk x3 y3 z3.

(** The curve [y^2 = x^3 + CURVE_B_I] of [setxy] and [RHS], in projective
    coordinates: [y^2 z = x^3 + CURVE_B_I z^3]. *)
Definition on_curve (P : t) : bool :=
  Fp_equals (Fp_mul (Fp_sqr (y P)) (z P))
    (Fp_add (Fp_mul (Fp_sqr (x P)) (x P))
       (Fp_imul (Fp_mul (Fp_sqr (z P)) (z P)) CURVE_B_I)).


(** [RHS(x)]: [x^2 * x + new FP(CURVE_B_I)]. *)
Definition RHS (x0 : Fp) : Fp := Fp_add (Fp_mul (Fp_sqr x0) x0) (Fp_of_Z CURVE_B_I).

(** [setxy(ix, iy)] on a fresh point: [x = ix], [y = iy] (an FP made from
    a BIG denotes it modulo p), [z = 1], and [inf()] unless
    [y^2 = RHS(x)]. *)
Definition setxy (ix iy : BIG) : t :=
  let x0 := Fp_of_Z (big_value ix) in
  let y0 := Fp_of_Z (big_value iy) in
  if Fp_equals (Fp_sqr y0) (RHS x0) then mk x0 y0 (Fp_of_Z 1) else new.

Section fromBytes_section.

(** [setxi(ix, s)] solves for [y] with [jacobi] and [sqrt]; [fromBytes]
    only hands it the decoded [x] and the tag's low bit. *)
Variable setxi : BIG -> Z -> t.

(** [ECP.fromBytes(b)]: [t[i] = b[i+1]] for the x bytes and
    [t[i] = b[i+MODBYTES+1]] for the y bytes. *)
Definition fromBytes (b : list Z) : t :=
  let p0 := Modulus in
  let px := fromBytes (map (fun i => nth (i + 1) b 0) (seq 0 (Z.to_nat MODBYTES))) in
  if comp px p0 >=? 0 then new
  else if nth 0 b 0 =? 0x04 then
    let py := fromBytes
      (map (fun i => nth (i + Z.to_nat MODBYTES + 1) b 0) (seq 0 (Z.to_nat MODBYTES))) in
    if comp py p0 >=? 0 then new else setxy px py
  else if (nth 0 b 0 =? 0x02) || (nth 0 b 0 =? 0x03) then setxi px (js_and (nth 0 b 0) 1)
  else new.

End fromBytes_section.

End ECP.

(** ** FP2 on the value level (fp2.js): [a + i b] with [i^2 = -1] *)

Module FP2.

Record t := mk { a : Fp; b : Fp }.

(** [new FP2(c)] for a number [c]: [a = c], [b = 0]. *)
Definition of_Z (c : Z) : t := mk (Fp_of_Z c) (Fp_of_Z 0).

(** [new FP2(c, d)] for two BIGs. *)
Definition of_BIGs (c d : BIG) : t := mk (Fp_of_Z (big_value c)) (Fp_of_Z (big_value d)).

Definition iszilch (w : t) : bool := Fp_iszilch (a w) && Fp_iszilch (b w).
Definition equals (w v : t) : bool := Fp_equals (a w) (a v) && Fp_equals (b w) (b v).
Definition add (w v : t) : t := mk (Fp_add (a w) (a v)) (Fp_add (b w) (b v)).

Definition zero : t := of_Z 0.
Definition one : t := of_Z 1.

(** [neg]: [m = -(a + b)], [a = m + b], [b = m + a]. *)
Definition neg (w : t) : t :=
  let m := Fp_opp (Fp_add (a w) (b w)) in
  mk (Fp_add m (b w)) (Fp_add m (a w)).

(** [sub(x)]: [this + (-x)]. *)
Definition sub (w v : t) : t := add w (neg v).

(** [times_i]: [(a, b) := (-b, a)]; [mul_ip]: that plus the old value. *)
Definition times_i (w : t) : t := mk (Fp_opp (b w)) (a w).
Definition mul_ip (w : t) : t := add (mk (Fp_opp (b w)) (a w)) w.

(** [sqr]: [b = b * (a + a)], [a = (a - b) * (a + b)]. *)
Definition sqr (w : t) : t :=
  let w1 := Fp_add (a w) (b w) in
  let w3 := Fp_add (a w) (a w) in
  let b' := Fp_mul (b w) w3 in
  let a' := Fp_add (a w) (Fp_opp (b w)) in
  mk (Fp_mul a' w1) b'.

(** [mul(y)]: Karatsuba; [A + (p - B)] and [E - (A + B)] reduced. *)
Definition mul (w v : t) : t :=
  let A := Fp_mul (a w) (a v) in
  let B := Fp_mul (b w) (b v) in
  let E := Fp_mul (Fp_add (a w) (b w)) (Fp_add (a v) (b v)) in
  mk (Fp_sub A B) (Fp_sub E (Fp_add A B)).

(** [div2] halves the denoted element. *)
Definition Fp_div2 (c : Fp) : Fp := Fp_mul c (Fp_of_Z ((p + 1) / 2)).

(** [div_ip]: [(a + b, b - a)], then [div2]. *)
Definition div_ip (w : t) : t :=
  mk (Fp_div2 (Fp_add (a w) (b w))) (Fp_div2 (Fp_sub (b w) (a w))).

End FP2.

(** ** FP4 on the value level (fp4.js): [a + s b] with [s^2 = 1 + i] *)

Module FP4.

Record t := mk { a : FP2.t; b : FP2.t }.

(** [new FP4(c)] for a number [c]: [a = new FP2(c)], [b = 0]. *)
Definition of_Z (c : Z) : t := mk (FP2.of_Z c) (FP2.of_Z 0).

Definition equals (x y : t) : bool := FP2.equals (a x) (a y) && FP2.equals (b x) (b y).
Definition add (x y : t) : t := mk (FP2.add (a x) (a y)) (FP2.add (b x) (b y)).

(** [neg]: [m = -(a + b)], [a = m + b], [b = m + a]. *)
Definition neg (x : t) : t :=
  let m := FP2.neg (FP2.add (a x) (b x)) in
  mk (FP2.add m (b x)) (FP2.add m (a x)).

Definition sub (x y : t) : t := add x (neg y).

(** [conj]: [b.neg()]; [nconj]: [a.neg()]. *)
Definition conj (x : t) : t := mk (a x) (FP2.neg (b x)).
Definition nconj (x : t) : t := mk (FP2.neg (a x)) (b x).

(** [sqr]. *)
Definition sqr (x : t) : t :=
  let t1 := FP2.add (a x) (b x) in
  let t2 := FP2.add (FP2.mul_ip (b x)) (a x) in
  let t3 := FP2.mul (a x) (b x) in
  let a' := FP2.mul t1 t2 in
  let t2 := FP2.add (FP2.mul_ip t3) t3 in
  mk (FP2.sub a' t2) (FP2.add t3 t3).

(** [mul(y)]. *)
Definition mul (x y : t) : t :=
  let t1 := FP2.mul (a x) (a y) in
  let t2 := FP2.mul (b x) (b y) in
  let t3 := FP2.add (b y) (a y) in
  let t4 := FP2.sub (FP2.mul (FP2.add (b x) (a x)) t3) t1 in
  let t3 := t2 in
  let t2 := FP2.mul_ip t2 in
  mk (FP2.add t2 t1) (FP2.sub t4 t3).

(** [times_i]: multiplication by [s]: [a = b + i b], [b = a]. *)
Definition times_i (x : t) : t :=
  let s := FP2.times_i (b x) in
  mk (FP2.add (b x) s) (a x).

End FP4.

(** ** FP12 on the value level (part_000): [a + b w + c w^2] with [w^3 = s] *)

Module FP12.

Record t := mk { a : FP4.t; b : FP4.t; c : FP4.t }.

Definition one : t := mk (FP4.of_Z 1) (FP4.of_Z 0) (FP4.of_Z 0).

Definition equals (x y : t) : bool :=
  FP4.equals (a x) (a y) && FP4.equals (b x) (b y) && FP4.equals (c x) (c y).

(** [conj]: [a.conj(); b.nconj(); c.conj()]. *)
Definition conj (x : t) : t := mk (FP4.conj (a x)) (FP4.nconj (b x)) (FP4.conj (c x)).

(** [usqr], the squaring "in unitary form". *)
Definition usqr (x : t) : t :=
  let A := a x in
  let B := c x in
  let C := b x in
  let a1 := FP4.sqr (a x) in
  let D := FP4.add a1 a1 in
  let a1 := FP4.add a1 D in
  let A := FP4.nconj A in
  let A := FP4.add A A in
  let a1 := FP4.add a1 A in
  let B := FP4.times_i (FP4.sqr B) in
  let D := FP4.add B B in
  let B := FP4.add B D in
  let C := FP4.sqr C in
  let D := FP4.add C C in
  let C := FP4.add C D in
  let b1 := FP4.conj (b x) in
  let b1 := FP4.add b1 b1 in
  let c1 := FP4.nconj (c x) in
  let c1 := FP4.add c1 c1 in
  mk a1 (FP4.add b1 B) (FP4.add c1 C).

(** [mul(y)]. *)
Definition mul (x y : t) : t :=
  let z0 := FP4.mul (a x) (a y) in
  let z2 := FP4.mul (b x) (b y) in
  let t0 := FP4.add (a x) (b x) in
  let t1 := FP4.add (a y) (b y) in
  let z1 := FP4.mul t0 t1 in
  let t0 := FP4.add (b x) (c x) in
  let t1 := FP4.add (b y) (c y) in
  let z3 := FP4.mul t0 t1 in
  let t0 := FP4.neg z0 in
  let t1 := FP4.neg z2 in
  let z1 := FP4.add z1 t0 in
  let b' := FP4.add z1 t1 in
  let z3 := FP4.add z3 t1 in
  let z2 := FP4.add z2 t0 in
  let t0 := FP4.add (a x) (c x) in
  let t1 := FP4.add (a y) (c y) in
  let t0 := FP4.mul t0 t1 in
  let z2 := FP4.add z2 t0 in
  let t0 := FP4.mul (c x) (c y) in
  let t1 := FP4.neg t0 in
  let c' := FP4.add z2 t1 in
  let z3 := FP4.add z3 t1 in
  let t0 := FP4.times_i t0 in
  let b' := FP4.add b' t0 in
  let z3 := FP4.times_i z3 in
  let a' := FP4.add z0 z3 in
  mk a' b' c'.

(** The [f0, f1, f2] that [inverse] computes before it scales them by the
    inverse of [f3]: the adjugate of [this]. *)
Definition inverse_adj (x : t) : t :=
  let f0 := FP4.sqr (a x) in
  let f1 := FP4.times_i (FP4.mul (b x) (c x)) in
  let f0 := FP4.sub f0 f1 in
  let f1 := FP4.times_i (FP4.sqr (c x)) in
  let f2 := FP4.mul (a x) (b x) in
  let f1 := FP4.sub f1 f2 in
  let f2 := FP4.sqr (b x) in
  let f3 := FP4.mul (a x) (c x) in
  let f2 := FP4.sub f2 f3 in
  mk f0 f1 f2.

(** The element [f3] that [inverse] inverts in FP4:
    [f3 = (b f2) s + a f0 + (c f1) s] for [(f0, f1, f2) = inverse_adj x]. *)
Definition inverse_f3 (x : t) : FP4.t :=
  let f := inverse_adj x in
  let f3 := FP4.times_i (FP4.mul (b x) (c f)) in
  let f3 := FP4.add f3 (FP4.mul (a x) (a f)) in
  FP4.add f3 (FP4.times_i (FP4.mul (c x) (b f))).

(** The loop of [pow(e)] for [i] from [nb-2] down to 1: [w.usqr()], then
    [w.mul(sf)] for [bt = 1] and [sf.conj(); w.mul(sf); sf.conj()] for
    [bt = -1]. *)
Fixpoint pow_loop (n : nat) (i : Z) (e3 e1 : BIG) (sf w : t) : t :=
  match n with
  | O => w
  | S n' =>
      let w := usqr w in
      let bt := bit e3 i - bit e1 i in
      let '(w, sf) :=
        if bt =? 1 then (mul w sf, sf)
        else if bt =? -1 then let sf' := conj sf in (mul w sf', conj sf')
        else (w, sf) in
      pow_loop n' (i - 1) e3 e1 sf w
  end.

(** [pow(e)]: [e1 = e] normalised, [e3 = 3 e1] normalised, [sf = w = this],
    [nb = e3.nbits()]. *)
Definition pow (x : t) (e : BIG) : t :=
  let e1 := norm e in
  let e3 := norm (fst (pmul e1 3)) in
  let sf := x in
  let w := sf in
  match nbits e3 with
  | Some nb => pow_loop (Z.to_nat (nb - 2)) (nb - 2) e3 e1 sf w
  | None => w
  end.

(** [x^n] by repeated [mul]. *)
Fixpoint npow (x : t) (n : nat) : t :=
  match n with
  | O => one
  | S n' => mul x (npow x n')
  end.

End FP12.

(** ** ECP2 points (ecp2.js) *)

Module ECP2.

Record t := mk { x : FP2.t; y : FP2.t; z : FP2.t }.

(** The constructor, and [inf()]: [(0, 1, 0)]. *)
Definition new : t := mk (FP2.of_Z 0) (FP2.of_Z 1) (FP2.of_Z 0).

Definition is_infinity (P : t) : bool := FP2.iszilch (x P) && FP2.iszilch (z P).

(** [RHS(x)]: [x^2 * x + new FP2(CURVE_B_I).div_ip()]. *)
Definition RHS (x0 : FP2.t) : FP2.t :=
  FP2.add (FP2.mul (FP2.sqr x0) x0) (FP2.div_ip (FP2.of_Z CURVE_B_I)).

(** [setxy(ix, iy)]: [x = ix], [y = iy], [z = 1], and [inf()] unless
    [y^2 = RHS(x)]. *)
Definition setxy (ix iy : FP2.t) : t :=
  if FP2.equals (FP2.sqr iy) (RHS ix) then mk ix iy (FP2.of_Z 1) else new.

(** [ECP2.fromBytes(b)]: four [BIG.fromBytes] of 32-byte slices, made into
    two FP2s, and [setxy]; no comparison with the modulus. *)
Definition fromBytes (bs : list Z) : t :=
  let slice i j := firstn (j - i) (skipn i bs) in
  let rax := fromBytes (slice 0 32)%nat in
  let rbx := fromBytes (slice 32 64)%nat in
  let rx := FP2.of_BIGs rax rbx in
  let ray := fromBytes (slice 64 96)%nat in
  let rby := fromBytes (slice 96 128)%nat in
  let ry := FP2.of_BIGs ray rby in
  setxy rx ry.

(** [toBytes] of an affine point: [x.a], [x.b], [y.a], [y.b] in turn. *)
Definition toBytes_affine (xa xb ya yb : BIG) : list Z :=
  toBytes xa ++ toBytes xb ++ toBytes ya ++ toBytes yb.

End ECP2.


(** The constants [i] of FP2 and [s] of FP4: FP2's [mul_ip] and [times_i]
    multiply by [1 + i] and by [i], FP4's [times_i] by [s]. *)
Definition FP2_i : FP2.t := FP2.mk (Fp_of_Z 0) (Fp_of_Z 1).
Definition FP4_s : FP4.t := FP4.mk (FP2.of_Z 0) (FP2.of_Z 1).

(** An element of the cyclotomic subgroup of FP12: [y^((p^6-1)(p^2+1))] for
    [y = (3 + 5 s) + (7 + 2 s) w + (1 + 4 s) w^2]. *)
Definition cyclotomic_sample : FP12.t :=
  FP12.mk
  (FP4.mk
    (FP2.mk (Fp_of_Z 6426200732066507518666766469774902587204132556454954814050601684439132677771)
      (Fp_of_Z 8343376489355217594625865002839301854149708507160336198500308545677473856973))
    (FP2.mk (Fp_of_Z 5045729778014874581760562482490243835549803198924555758452022866381569365117)
      (Fp_of_Z 13797461188629358473749350369986198229153392655606225658668616315318505103340)))
  (FP4.mk
    (FP2.mk (Fp_of_Z 9956179883877186312416125535960022850271920503632876117538131632887135632095)
      (Fp_of_Z 8013920207533052110027582814988450313359813324009687454587689940471697715297))
    (FP2.mk (Fp_of_Z 16361395197548575754919718520017531753543860864081923782970573123582010953494)
      (Fp_of_Z 46333101283272661856107355807583498585640412400347074794268309333861939278)))
  (FP4.mk
    (FP2.mk (Fp_of_Z 13872263779826704631259163025143239846811027677640043316888915527683250180810)
      (Fp_of_Z 11695204480775597557770822262893796058458403299648525269717722324259179244600))
    (FP2.mk (Fp_of_Z 9791268733226179973148927003436499613144920308149485672205910022956576839615)
      (Fp_of_Z 11527255732874983408753783268151014156664452589220247832275340382468975552610))).

(** The element [-1]: its conjugate is its inverse. *)
Definition FP12_minus_one : FP12.t := FP12.mk (FP4.of_Z (-1)) (FP4.of_Z 0) (FP4.of_Z 0).

(** A small exponent [n] as a normalised BIG of NLEN limbs. *)
Definition BIG_of_small (n : Z) : BIG := n :: repeat 0 (Z.to_nat NLEN - 1).

(** * Proofs *)

(** ** JavaScript integer lemmas *)

Lemma BMASK_eq : BMASK = 2 ^ 24 - 1.
Proof. reflexivity. Qed.

Lemma ToInt32_mod (z : Z) : ToInt32 z mod 2 ^ 32 = z mod 2 ^ 32.
Proof.
  unfold ToInt32. destruct (Z.ltb_spec (z mod 2 ^ 32) (2 ^ 31)).
  - apply Z.mod_mod. lia.
  - rewrite Zminus_mod, Z.mod_mod, Z_mod_same_full, Z.sub_0_r by lia.
    apply Z.mod_mod. lia.
Qed.

Lemma ToInt32_id (z : Z) : - 2 ^ 31 <= z < 2 ^ 31 -> ToInt32 z = z.
Proof.
  intros Hz. unfold ToInt32.
  destruct (Z_lt_le_dec z 0).
  - rewrite <- (Z.mod_unique z (2 ^ 32) (-1) (z + 2 ^ 32)) by lia.
    destruct (Z.ltb_spec (z + 2 ^ 32) (2 ^ 31)); lia.
  - rewrite Z.mod_small by lia.
    destruct (Z.ltb_spec z (2 ^ 31)); lia.
Qed.

Lemma ToInt32_range (z : Z) : - 2 ^ 31 <= ToInt32 z < 2 ^ 31.
Proof.
  unfold ToInt32. pose proof (Z.mod_pos_bound z (2 ^ 32)).
  destruct (Z.ltb_spec (z mod 2 ^ 32) (2 ^ 31)); lia.
Qed.

Lemma mod_2_24_of_mod_2_32 (a b : Z) :
  a mod 2 ^ 32 = b mod 2 ^ 32 -> a mod 2 ^ 24 = b mod 2 ^ 24.
Proof.
  intros H.
  replace (2 ^ 32) with (2 ^ 24 * 2 ^ 8) in H by reflexivity.
  rewrite (Z.rem_mul_r a), (Z.rem_mul_r b) in H by lia.
  pose proof (Z.mod_pos_bound a (2 ^ 24)). pose proof (Z.mod_pos_bound b (2 ^ 24)).
  pose proof (Z.mod_pos_bound (a / 2 ^ 24) (2 ^ 8)).
  pose proof (Z.mod_pos_bound (b / 2 ^ 24) (2 ^ 8)).
  lia.
Qed.

(** [d & BMASK] keeps the low 24 bits of any integer [d]. *)
Lemma js_and_BMASK (d : Z) : js_and d BMASK = d mod 2 ^ 24.
Proof.
  unfold js_and. rewrite BMASK_eq.
  rewrite (ToInt32_id (2 ^ 24 - 1)) by lia.
  replace (2 ^ 24 - 1) with (Z.ones 24) by reflexivity.
  rewrite Z.land_ones by lia.
  apply mod_2_24_of_mod_2_32. apply ToInt32_mod.
Qed.

Lemma js_shr_div (d k : Z) :
  - 2 ^ 31 <= d < 2 ^ 31 -> 0 <= k < 32 -> js_shr d k = d / 2 ^ k.
Proof.
  intros Hd Hk. unfold js_shr. rewrite ToInt32_id by lia.
  rewrite Z.mod_small by lia. apply Z.shiftr_div_pow2. lia.
Qed.

Lemma js_shr_range (d k : Z) :
  - 2 ^ 31 <= js_shr d k < 2 ^ 31.
Proof.
  unfold js_shr. pose proof (ToInt32_range d).
  pose proof (Z.mod_pos_bound k 32).
  rewrite Z.shiftr_div_pow2 by lia.
  assert (1 <= 2 ^ (k mod 32)) by (pose proof (Z.pow_pos_nonneg 2 (k mod 32)); lia).
  split.
  - apply Z.div_le_lower_bound; nia.
  - apply Z.div_lt_upper_bound; nia.
Qed.

(** ** Limb arrays *)

Lemma big_value_app (l1 l2 : BIG) :
  big_value (l1 ++ l2) = big_value l1 + 2 ^ (BASEBITS * Z.of_nat (length l1)) * big_value l2.
Proof.
  induction l1 as [| x l1 IH]; cbn [app big_value length].
  - change (BASEBITS * Z.of_nat 0) with 0. rewrite Z.pow_0_r. lia.
  - rewrite IH. rewrite Nat2Z.inj_succ, Z.mul_succ_r, Z.pow_add_r.
    + ring.
    + unfold BASEBITS; lia.
    + unfold BASEBITS; lia.
Qed.

Lemma big_value_bounds (l : BIG) :
  Forall (fun x => 0 <= x < 2 ^ 24) l ->
  0 <= big_value l < 2 ^ (BASEBITS * Z.of_nat (length l)).
Proof.
  induction 1 as [| x l Hx _ IH]; cbn [big_value length].
  - change (BASEBITS * Z.of_nat 0) with 0. rewrite Z.pow_0_r. lia.
  - rewrite Nat2Z.inj_succ, Z.mul_succ_r, Z.pow_add_r by (unfold BASEBITS; lia).
    unfold BASEBITS in *. nia.
Qed.

Lemma norm_aux_spec (w : BIG) (c : Z) :
  w <> [] ->
  Forall (fun x => - 2 ^ 30 <= x < 2 ^ 30) w ->
  - 2 ^ 7 <= c < 2 ^ 7 ->
  length (norm_aux c w) = length w /\
  Forall (fun x => 0 <= x < 2 ^ 24) (removelast (norm_aux c w)) /\
  big_value (norm_aux c w) = c + big_value w.
Proof.
  revert c. induction w as [| x w IH]; intros c Hne Hw Hc; [congruence |].
  inversion Hw as [| ? ? Hx Hw']; subst.
  destruct w as [| y w].
  - simpl. repeat split; [constructor | lia].
  - change (norm_aux c (x :: y :: w))
      with (js_and (x + c) BMASK :: norm_aux (js_shr (x + c) BASEBITS) (y :: w)).
    rewrite js_and_BMASK.
    rewrite js_shr_div by (unfold BASEBITS; lia).
    unfold BASEBITS.
    assert (Hq : - 2 ^ 7 <= (x + c) / 2 ^ 24 < 2 ^ 7).
    { split.
      - apply Z.div_le_lower_bound; lia.
      - apply Z.div_lt_upper_bound; lia. }
    destruct (IH ((x + c) / 2 ^ 24)) as (Hl & Hf & Hv); [congruence | exact Hw' | exact Hq |].
    assert (Hne' : norm_aux ((x + c) / 2 ^ 24) (y :: w) <> []).
    { intro E. rewrite E in Hl. discriminate Hl. }
    split; [cbn [length] in *; congruence |]. split.
    + destruct (norm_aux ((x + c) / 2 ^ 24) (y :: w)) as [| z l] eqn:E; [congruence |].
      change (removelast ((x + c) mod 2 ^ 24 :: z :: l)) with ((x + c) mod 2 ^ 24 :: removelast (z :: l)).
      constructor; [apply Z.mod_pos_bound; lia | exact Hf].
    + change (big_value ((x + c) mod 2 ^ 24 :: norm_aux ((x + c) / 2 ^ 24) (y :: w)))
        with ((x + c) mod 2 ^ 24 + 2 ^ BASEBITS * big_value (norm_aux ((x + c) / 2 ^ 24) (y :: w))).
      rewrite Hv.
      change (big_value (x :: y :: w)) with (x + 2 ^ BASEBITS * big_value (y :: w)).
      pose proof (Z.div_mod (x + c) (2 ^ 24)). unfold BASEBITS in *. lia.
Qed.

Lemma norm_last_limb (w : BIG) :
  w <> [] ->
  Forall (fun x => 0 <= x < 2 ^ 24) (removelast w) ->
  last w 0 = big_value w / 2 ^ (BASEBITS * Z.of_nat (length w - 1)).
Proof.
  intros Hne Hf.
  rewrite (app_removelast_last 0 Hne) at 2 3.
  rewrite big_value_app, length_app. cbn [length big_value].
  replace (length (removelast w) + 1 - 1)%nat with (length (removelast w)) by lia.
  pose proof (big_value_bounds _ Hf).
  apply Z.div_unique with (r := big_value (removelast w)); [left; lia | ring].
Qed.

Lemma Forall_range_forallb (lo hi : Z) (l : list Z) :
  forallb (fun x => (lo <=? x) && (x <? hi)) l = true ->
  Forall (fun x => lo <= x < hi) l.
Proof.
  intro H. apply Forall_forall. intros x Hx.
  rewrite forallb_forall in H. specialize (H x Hx).
  apply andb_prop in H as [H1 H2]. apply Z.leb_le in H1. apply Z.ltb_lt in H2. lia.
Qed.

(** ** Claim C3: PAIR.lbits *)

(** C3 (counterexample): [lbits] does not compute [6 * CURVE_Bnx + 2];
    it subtracts 2 ([n.dec(2)]). *)
Lemma lbits_not_6Bnx_plus_2 : big_value (snd lbits) <> 6 * big_value CURVE_Bnx + 2.
Proof. vm_compute. intro H. discriminate H. Qed.

(** C3 (amended): [lbits] sets [n = 6 * CURVE_Bnx - 2] (that is
    [|6u + 2|] for the BN parameter [u = -CURVE_Bnx]) and [n3 = 3 * n],
    both normalised, and returns [nbits(n3) = 67]; the digits
    [bt = n3.bit(i) - n.bit(i)] are in {-1, 0, 1}, and the digits at
    i = 65 .. 1 that the loops visit, under the leading digit 1 at
    i = 66 that the start value [A = P] stands for, recode [n]. *)
Theorem lbits_correct :
  big_value (snd lbits) = 6 * big_value CURVE_Bnx - 2 /\
  big_value (snd lbits) = - (6 * (- big_value CURVE_Bnx) + 2) /\
  big_value (snd (fst lbits)) = 3 * big_value (snd lbits) /\
  Forall (fun x => 0 <= x < 2 ^ 24) (snd lbits) /\
  Forall (fun x => 0 <= x < 2 ^ 24) (snd (fst lbits)) /\
  fst (fst lbits) = Some 67 /\
  big_value (snd lbits) =
    2 ^ 65 + fold_right (fun i acc => loop_digit i * 2 ^ (i - 1) + acc) 0
               (map Z.of_nat (seq 1 65)) /\
  (forall i, loop_digit i = -1 \/ loop_digit i = 0 \/ loop_digit i = 1).
Proof.
  split; [vm_compute; reflexivity |].
  split; [vm_compute; reflexivity |].
  split; [vm_compute; reflexivity |].
  split; [apply Forall_range_forallb; vm_compute; reflexivity |].
  split; [apply Forall_range_forallb; vm_compute; reflexivity |].
  split; [vm_compute; reflexivity |].
  split; [vm_compute; reflexivity |].
  intro i. unfold loop_digit. destruct lbits as [[nb n3] n].
  unfold bit. destruct (_ >? 0), (_ >? 0); lia.
Qed.

(** ** Claim C8: BIG.norm *)

(** C8 (counterexample): the top limb is not masked by [norm]: a BIG whose
    top limb is [2^24] keeps it. *)
Lemma norm_top_limb_unmasked :
  ~ Forall (fun x => 0 <= x < 2 ^ 24) (norm [0; 0; 0; 0; 0; 0; 0; 0; 0; 0; 2 ^ 24]).
Proof.
  intro H. apply Forall_rev in H.
  change (rev (norm [0; 0; 0; 0; 0; 0; 0; 0; 0; 0; 2 ^ 24]))
    with [2 ^ 24; 0; 0; 0; 0; 0; 0; 0; 0; 0; 0] in H.
  inversion H as [| ? ? Hx]. lia.
Qed.

(** C8 (amended): for a BIG of NLEN limbs in [-2^30, 2^30), [norm] puts
    the NLEN-1 low limbs in [0, 2^24), adds the last carry to the top limb
    without masking it, so that the top limb holds the value's bits from
    [BASEBITS * (NLEN - 1)] up, and keeps the represented value. *)
Theorem norm_postcondition (w : BIG) :
  length w = Z.to_nat NLEN ->
  Forall (fun x => - 2 ^ 30 <= x < 2 ^ 30) w ->
  length (norm w) = Z.to_nat NLEN /\
  Forall (fun x => 0 <= x < 2 ^ 24) (removelast (norm w)) /\
  big_value (norm w) = big_value w /\
  last (norm w) 0 = big_value w / 2 ^ (BASEBITS * (NLEN - 1)).
Proof.
  intros Hlen Hw.
  assert (Hne : w <> []) by (intro E; subst; discriminate Hlen).
  destruct (norm_aux_spec w 0 Hne Hw) as (Hl & Hf & Hv); [lia |].
  fold (norm w) in Hl, Hf, Hv.
  split; [congruence |]. split; [exact Hf |]. split; [lia |].
  assert (Hne' : norm w <> []) by (intro E; rewrite E, Hlen in Hl; vm_compute in Hl; discriminate Hl).
  rewrite (norm_last_limb _ Hne' Hf), Hl, Hv, Hlen. reflexivity.
Qed.

Lemma norm_postcondition_witness :
  let w := [2 ^ 24 + 5; -3; 2 ^ 29; 0; 7; -1; 0; 0; 0; 0; 2 ^ 25] in
  (length w = Z.to_nat NLEN /\ Forall (fun x => - 2 ^ 30 <= x < 2 ^ 30) w) /\
  (length (norm w) = Z.to_nat NLEN /\
   Forall (fun x => 0 <= x < 2 ^ 24) (removelast (norm w)) /\
   big_value (norm w) = big_value w /\
   last (norm w) 0 = big_value w / 2 ^ (BASEBITS * (NLEN - 1))).
Proof.
  intro w.
  assert (H1 : length w = Z.to_nat NLEN) by reflexivity.
  assert (H2 : Forall (fun x => - 2 ^ 30 <= x < 2 ^ 30) w)
    by (apply Forall_range_forallb; vm_compute; reflexivity).
  split; [split; assumption |].
  apply (norm_postcondition w H1 H2).
Defined.

(** ** Claim C7: the excess bound of FP *)

Lemma reduce_XES (x : FP) : XES (reduce x) = 1.
Proof.
  unfold reduce.
  destruct (XES x >? 16); [destruct (pmul _ _) |];
    destruct (reduce_loop _ _ _ _) as [[? ?] ?]; reflexivity.
Qed.

Lemma FEXCESS_eq : FEXCESS = 1023.
Proof. reflexivity. Qed.

Lemma fp_norm_XES (x : FP) : XES (fp_norm x) = XES x.
Proof. reflexivity. Qed.

(** C7 (counterexample): a reduced FP whose low limb is [2^24 - 1], added to
    itself five times, has excess 32 and a limb whose product with the
    excess exceeds [2^32]; no reduce is forced since 32 is below FEXCESS. *)
Lemma fp_add_limb_excess_overflow :
  let x0 := reduce (mkFP (to_limbs (Z.to_nat NLEN) (2 ^ 24 - 1)) 1) in
  let x1 := fp_add x0 x0 in
  let x2 := fp_add x1 x1 in
  let x3 := fp_add x2 x2 in
  let x4 := fp_add x3 x3 in
  let x5 := fp_add x4 x4 in
  XES x5 = 32 /\ XES x5 <= FEXCESS /\ limb (f x5) 0 * XES x5 >= 2 ^ 32.
Proof. vm_compute. split; [reflexivity | split; discriminate]. Qed.

(** C7 (amended): every FP operation ends with [XES <= FEXCESS]: [add]
    (and so [sub]) and [neg] reduce when the new excess passes FEXCESS,
    [mul] and [sqr] reduce their receiver first when the product of the
    excesses passes it and leave excess 2, [imul] multiplies the excess only
    while it stays within FEXCESS and otherwise falls back to [mul], and
    [reduce] leaves excess 1.  The limb bound [limb * XES < 2^32] is not
    kept (see the counterexample). *)
Theorem fp_excess_bounded
    (mul_limbs : BIG -> BIG -> BIG) (sqr_limbs : BIG -> BIG) (nres_limbs : Z -> BIG)
    (x b : FP) (c : Z) :
  XES (fp_add x b) = (if XES x + XES b >? FEXCESS then 1 else XES x + XES b) /\
  XES (fp_add x b) <= FEXCESS /\
  XES (fp_neg x) <= FEXCESS /\
  XES (fp_sub x b) <= FEXCESS /\
  XES (fp_mul mul_limbs x b) = 2 /\
  XES (fp_sqr sqr_limbs x) = 2 /\
  XES (fp_imul mul_limbs nres_limbs x c) <= FEXCESS /\
  XES (reduce x) = 1.
Proof.
  assert (Hadd : forall x b : FP,
    XES (fp_add x b) = (if XES x + XES b >? FEXCESS then 1 else XES x + XES b)).
  { intros x' b'. unfold fp_add. cbn [XES].
    destruct (XES x' + XES b' >? FEXCESS); [apply reduce_XES | reflexivity]. }
  assert (Hadd' : forall x b : FP, XES (fp_add x b) <= FEXCESS).
  { intros x' b'. rewrite Hadd. rewrite FEXCESS_eq.
    destruct (Z.gtb_spec (XES x' + XES b') 1023); lia. }
  assert (Hneg : forall x : FP, XES (fp_neg x) <= FEXCESS).
  { intros x'. unfold fp_neg. cbn [XES]. rewrite FEXCESS_eq.
    destruct (Z.gtb_spec (js_shl 1 (logb2 (XES x' - 1)) + 1) 1023).
    - rewrite reduce_XES. lia.
    - cbn [XES]. lia. }
  split; [apply Hadd |]. split; [apply Hadd' |]. split; [apply Hneg |].
  split; [apply Hadd' |]. split; [reflexivity |]. split; [reflexivity |].
  split; [| apply reduce_XES].
  unfold fp_imul.
  destruct (c <? 0); [rewrite fp_norm_XES; apply Hneg |].
  destruct (Z.leb_spec (XES x * c) FEXCESS); cbn [XES]; [lia |].
  rewrite FEXCESS_eq. unfold fp_mul. cbn [XES]. lia.
Qed.

(** ** Bit lemmas for [ssn] and [cmove] *)

Lemma int32_range_shiftr (z : Z) :
  int32_range z <-> Z.shiftr z 31 = 0 \/ Z.shiftr z 31 = -1.
Proof.
  unfold int32_range. rewrite Z.shiftr_div_pow2 by lia.
  pose proof (Z.div_mod z (2 ^ 31)). pose proof (Z.mod_pos_bound z (2 ^ 31)).
  split.
  - intros Hz. destruct (Z_lt_le_dec z 0); [right | left]; nia.
  - intros [Hz | Hz]; nia.
Qed.

Lemma lxor_int32_range (a b : Z) :
  int32_range a -> int32_range b -> int32_range (Z.lxor a b).
Proof.
  rewrite !int32_range_shiftr, Z.shiftr_lxor.
  intros [Ha | Ha] [Hb | Hb]; rewrite Ha, Hb; cbn; auto.
Qed.

Lemma js_xor_range (a b : Z) : int32_range (js_xor a b).
Proof. apply lxor_int32_range; apply ToInt32_range. Qed.

(** [cmove(b, 0)] keeps the limbs, [cmove(b, 1)] copies [b]. *)
Lemma cmove_0 (w b : BIG) :
  length w = length b -> Forall int32_range w -> cmove w b 0 = w.
Proof.
  unfold cmove. replace (js_not (0 - 1)) with 0 by reflexivity.
  revert b. induction w as [| x w IH]; intros [| y b] Hl Hw; try discriminate; [reflexivity |].
  inversion Hw; subst. cbn [combine map]. f_equal; [| apply IH; auto].
  unfold js_and, js_xor. rewrite (ToInt32_id 0) by lia. rewrite Z.land_0_r.
  rewrite (ToInt32_id 0) by lia. rewrite Z.lxor_0_r. apply ToInt32_id. assumption.
Qed.

Lemma cmove_1 (w b : BIG) :
  length w = length b -> Forall int32_range w -> Forall int32_range b -> cmove w b 1 = b.
Proof.
  unfold cmove. replace (js_not (1 - 1)) with (-1) by reflexivity.
  revert b. induction w as [| x w IH]; intros [| y b] Hl Hw Hb; try discriminate; [reflexivity |].
  inversion Hw; inversion Hb; subst. cbn [combine map]. f_equal; [| apply IH; auto].
  unfold js_and. rewrite (ToInt32_id (-1)) by lia. rewrite Z.land_m1_r.
  rewrite (ToInt32_id (js_xor x y)) by apply js_xor_range.
  unfold js_xor. rewrite (ToInt32_id x), (ToInt32_id y) by assumption.
  rewrite (ToInt32_id (Z.lxor x y)) by (apply lxor_int32_range; assumption).
  rewrite <- Z.lxor_assoc, Z.lxor_nilpotent, Z.lxor_0_l. reflexivity.
Qed.

Lemma lor_disjoint_23 (a e : Z) :
  0 <= a < 2 ^ 23 -> 0 <= e < 2 -> Z.lor a (e * 2 ^ 23) = a + e * 2 ^ 23.
Proof.
  intros Ha He.
  assert (Hland : Z.land a (e * 2 ^ 23) = 0).
  { assert (e = 0 \/ e = 1) as [-> | ->] by lia.
    - apply Z.land_0_r.
    - rewrite <- (Z.mod_small a (2 ^ 23)) by lia.
      rewrite <- Z.land_ones by lia.
      rewrite <- Z.land_assoc.
      replace (Z.land (Z.ones 23) (1 * 2 ^ 23)) with 0 by reflexivity.
      apply Z.land_0_r. }
  rewrite <- Z.lxor_lor by exact Hland.
  symmetry. apply Z.add_nocarry_lxor. exact Hland.
Qed.

Lemma mod_pow2_of_mod_2_32 (k a b : Z) :
  0 <= k <= 32 -> a mod 2 ^ 32 = b mod 2 ^ 32 -> a mod 2 ^ k = b mod 2 ^ k.
Proof.
  intros Hk H.
  assert (Hd : (2 ^ k | 2 ^ 32)).
  { exists (2 ^ (32 - k)). rewrite <- Z.pow_add_r by lia. f_equal. lia. }
  assert (0 < 2 ^ k) by (apply Z.pow_pos_nonneg; lia).
  rewrite <- (Z.mod_mod_divide a (2 ^ 32) (2 ^ k)), <- (Z.mod_mod_divide b (2 ^ 32) (2 ^ k)) by exact Hd.
  congruence.
Qed.

(** One limb of the halved [m] in [ssn]. *)
Lemma ssn_limb (mi mi1 : Z) :
  0 <= mi < 2 ^ 24 ->
  js_or (js_shr mi 1) (js_and (js_shl mi1 (BASEBITS - 1)) BMASK) = mi / 2 + (mi1 mod 2) * 2 ^ 23.
Proof.
  intros Hm.
  rewrite js_shr_div, Z.pow_1_r by lia. rewrite js_and_BMASK.
  assert (Hsh : js_shl mi1 (BASEBITS - 1) mod 2 ^ 24 = (mi1 mod 2) * 2 ^ 23).
  { unfold js_shl.
    rewrite (mod_pow2_of_mod_2_32 24 _ (Z.shiftl (ToInt32 mi1) ((BASEBITS - 1) mod 32)))
      by (lia || apply ToInt32_mod).
    change ((BASEBITS - 1) mod 32) with 23.
    rewrite Z.shiftl_mul_pow2 by lia.
    change (2 ^ 24) with (2 * 2 ^ 23).
    rewrite Z.mul_mod_distr_r by lia.
    f_equal. apply (mod_pow2_of_mod_2_32 1); [lia | apply ToInt32_mod]. }
  rewrite Hsh.
  pose proof (Z.mod_pos_bound mi1 2).
  assert (Hh : 0 <= mi / 2 < 2 ^ 23).
  { split; [apply Z.div_pos; lia | apply Z.div_lt_upper_bound; lia]. }
  unfold js_or. rewrite !ToInt32_id by lia.
  apply lor_disjoint_23; lia.
Qed.

Lemma ssn_sign_bit (rn : Z) :
  int32_range rn -> js_and (js_shr rn (CHUNK - 1)) 1 = if rn <? 0 then 1 else 0.
Proof.
  intros Hr. unfold int32_range in Hr.
  rewrite js_shr_div by (unfold CHUNK; lia). change (CHUNK - 1) with 31.
  destruct (Z.ltb_spec rn 0).
  - replace (rn / 2 ^ 31) with (-1).
    + reflexivity.
    + apply Z.div_unique with (r := rn + 2 ^ 31); [left | ]; lia.
  - rewrite Z.div_small by lia. reflexivity.
Qed.

Lemma ssn_aux_cons (c ai ai1 mi mi1 : Z) (a m : BIG) :
  ssn_aux c (ai :: ai1 :: a) (mi :: mi1 :: m) =
  let mi' := js_or (js_shr mi 1) (js_and (js_shl mi1 (BASEBITS - 1)) BMASK) in
  let ri := ai - mi' + c in
  let '(r, m'', b) := ssn_aux (js_shr ri BASEBITS) (ai1 :: a) (mi1 :: m) in
  (js_and ri BMASK :: r, mi' :: m'', b).
Proof. reflexivity. Qed.

Lemma ssn_aux_spec (a m : BIG) (c : Z) :
  length a = length m -> a <> [] -> limbs24 a -> limbs24 m -> -1 <= c <= 0 ->
  let '(r, m', b) := ssn_aux c a m in
  length r = length a /\ length m' = length m /\ limbs24 m' /\
  big_value m' = big_value m / 2 /\
  limbs24 (removelast r) /\
  big_value r = c + big_value a - big_value m' /\
  ((b = 1 /\ big_value r < 0) \/ (b = 0 /\ 0 <= big_value r)).
Proof.
  revert m c. induction a as [| ai a IH]; intros m c Hl Hne Ha Hm Hc; [congruence |].
  destruct m as [| mi m]; [discriminate |].
  inversion Ha as [| ? ? Hai Ha']; inversion Hm as [| ? ? Hmi Hm']; subst.
  destruct a as [| ai1 a].
  - destruct m as [| mi1 m]; [| discriminate].
    cbn [ssn_aux]. rewrite js_shr_div, Z.pow_1_r by lia.
    rewrite ssn_sign_bit by (unfold int32_range; pose proof (Z.div_pos mi 2); pose proof (Z.div_le_upper_bound mi 2 mi); lia).
    cbn [length big_value].
    assert (0 <= mi / 2 < 2 ^ 24).
    { split; [apply Z.div_pos | apply Z.div_lt_upper_bound]; lia. }
    split; [reflexivity |]. split; [reflexivity |].
    split; [repeat constructor; lia |].
    split; [rewrite Z.mul_0_r, !Z.add_0_r; reflexivity |].
    split; [constructor |].
    split; [lia |].
    destruct (Z.ltb_spec (ai - mi / 2 + c) 0); [left | right]; lia.
  - destruct m as [| mi1 m]; [discriminate |].
    rewrite ssn_aux_cons. cbv zeta.
    rewrite ssn_limb by exact Hmi.
    inversion Hm' as [| ? ? Hmi1 _]; subst.
    set (mi' := mi / 2 + mi1 mod 2 * 2 ^ 23).
    assert (Hmi' : 0 <= mi' < 2 ^ 24).
    { pose proof (Z.mod_pos_bound mi1 2).
      assert (0 <= mi / 2 < 2 ^ 23) by (split; [apply Z.div_pos | apply Z.div_lt_upper_bound]; lia).
      unfold mi'. lia. }
    set (ri := ai - mi' + c).
    assert (Hri : - 2 ^ 24 <= ri < 2 ^ 24) by (unfold ri; lia).
    rewrite js_shr_div by (unfold BASEBITS; lia). unfold BASEBITS.
    assert (Hq : -1 <= ri / 2 ^ 24 <= 0).
    { split; [apply Z.div_le_lower_bound; lia |].
      assert (ri / 2 ^ 24 < 1) by (apply Z.div_lt_upper_bound; lia). lia. }
    specialize (IH (mi1 :: m) (ri / 2 ^ 24)).
    destruct (ssn_aux (ri / 2 ^ 24) (ai1 :: a) (mi1 :: m)) as [[r m''] b].
    destruct IH as (Hlr & Hlm & Hm'' & Hvm & Hr & Hvr & Hb);
      [cbn in Hl |- *; lia | discriminate | exact Ha' | exact Hm' | exact Hq |].
    rewrite js_and_BMASK.
    pose proof (Z.div_mod ri (2 ^ 24)). pose proof (Z.mod_pos_bound ri (2 ^ 24)).
    assert (Hr_ne : r <> []) by (intro E; subst r; discriminate Hlr).
    split; [cbn [length] in *; congruence |].
    split; [cbn [length] in *; congruence |].
    split; [constructor; assumption |].
    split.
    + change (big_value (mi' :: m'')) with (mi' + 2 ^ BASEBITS * big_value m'').
      change (big_value (mi :: mi1 :: m)) with (mi + 2 ^ BASEBITS * big_value (mi1 :: m)).
      rewrite Hvm. unfold BASEBITS.
      set (V := big_value (mi1 :: m)).
      assert (HV : V = mi1 + 2 ^ 24 * big_value m) by reflexivity.
      pose proof (Z.div_mod V 2). pose proof (Z.mod_pos_bound V 2).
      pose proof (Z.div_mod mi1 2). pose proof (Z.mod_pos_bound mi1 2).
      pose proof (Z.div_mod mi 2). pose proof (Z.mod_pos_bound mi 2).
      pose proof (Z.div_mod (mi + 2 ^ 24 * V) 2). pose proof (Z.mod_pos_bound (mi + 2 ^ 24 * V) 2).
      unfold mi'. lia.
    + split.
      * destruct r as [| r0 r]; [congruence |].
        change (removelast (ri mod 2 ^ 24 :: r0 :: r)) with (ri mod 2 ^ 24 :: removelast (r0 :: r)).
        constructor; [lia | exact Hr].
      * change (big_value (ri mod 2 ^ 24 :: r)) with (ri mod 2 ^ 24 + 2 ^ BASEBITS * big_value r).
        change (big_value (mi' :: m'')) with (mi' + 2 ^ BASEBITS * big_value m'').
        change (big_value (ai :: ai1 :: a)) with (ai + 2 ^ BASEBITS * big_value (ai1 :: a)).
        unfold BASEBITS. rewrite Hvr.
        split; [unfold ri in *; lia |].
        destruct Hb as [[-> Hb] | [-> Hb]]; [left | right]; lia.
Qed.

Lemma limbs24_of_value (w : BIG) :
  w <> [] -> limbs24 (removelast w) ->
  0 <= big_value w < 2 ^ (BASEBITS * Z.of_nat (length w)) -> limbs24 w.
Proof.
  intros Hne Hf Hv.
  pose proof (norm_last_limb w Hne Hf) as Hlast.
  rewrite (app_removelast_last 0 Hne). apply Forall_app. split; [exact Hf |].
  constructor; [| constructor]. rewrite Hlast.
  assert (Hlen : (length w >= 1)%nat) by (destruct w; [congruence | cbn; lia]).
  assert (Hpow : 2 ^ (BASEBITS * Z.of_nat (length w)) =
                 2 ^ (BASEBITS * Z.of_nat (length w - 1)) * 2 ^ 24).
  { rewrite <- Z.pow_add_r by (unfold BASEBITS; lia). f_equal. unfold BASEBITS. lia. }
  assert (0 < 2 ^ (BASEBITS * Z.of_nat (length w - 1))) by (apply Z.pow_pos_nonneg; unfold BASEBITS; lia).
  split; [apply Z.div_pos; lia |]. apply Z.div_lt_upper_bound; lia.
Qed.

Lemma limbs24_int32 (w : BIG) : limbs24 w -> Forall int32_range w.
Proof.
  apply Forall_impl. intros x Hx. unfold int32_range. lia.
Qed.

Lemma reduce_loop_S (n : nat) (fl r m : BIG) :
  reduce_loop (S n) fl r m =
  let '(r', m', sr) := ssn fl m in reduce_loop n (cmove fl r' (1 - sr)) r' m'.
Proof. reflexivity. Qed.

(** The loop of [reduce]: with [m = M * 2^n] on entry and [f < m], the
    [n] rounds halve [m] back to [M] and leave [f mod M]. *)
Lemma reduce_loop_spec (n : nat) (fl r m : BIG) (M : Z) :
  0 < M ->
  length fl = Z.to_nat NLEN -> length m = Z.to_nat NLEN ->
  limbs24 fl -> limbs24 m ->
  big_value m = M * 2 ^ Z.of_nat n -> big_value fl < M * 2 ^ Z.of_nat n ->
  let '(f', _, m') := reduce_loop n fl r m in
  limbs24 f' /\ length f' = Z.to_nat NLEN /\ big_value m' = M /\
  big_value f' = big_value fl mod M.
Proof.
  revert fl r m. induction n as [| n IH]; intros fl r m HM Hlf Hlm Hf Hm Hvm Hvf.
  - cbn [reduce_loop]. cbn [Z.of_nat] in *. rewrite Z.pow_0_r, Z.mul_1_r in *.
    pose proof (big_value_bounds fl Hf).
    repeat split; try assumption. rewrite Z.mod_small by lia. reflexivity.
  - rewrite reduce_loop_S. unfold ssn.
    assert (Hne : fl <> []) by (intro E; subst fl; discriminate Hlf).
    pose proof (ssn_aux_spec fl m 0 ltac:(congruence) Hne Hf Hm ltac:(lia)) as Hs.
    destruct (ssn_aux 0 fl m) as [[r' m'] sr].
    destruct Hs as (Hlr & Hlm' & Hm' & Hvm' & Hr' & Hvr & Hsr).
    assert (Hpow : 2 ^ Z.of_nat (S n) = 2 * 2 ^ Z.of_nat n).
    { rewrite Nat2Z.inj_succ, Z.pow_succ_r by lia. reflexivity. }
    assert (HMn : 0 < M * 2 ^ Z.of_nat n) by (apply Z.mul_pos_pos; [lia | apply Z.pow_pos_nonneg; lia]).
    rewrite Hvm, Hpow in Hvm'.
    replace (M * (2 * 2 ^ Z.of_nat n)) with ((M * 2 ^ Z.of_nat n) * 2) in Hvm' by ring.
    rewrite Z.div_mul in Hvm' by lia.
    rewrite Hpow in Hvf.
    pose proof (big_value_bounds fl Hf) as Hbf.
    destruct Hsr as [[-> Hneg] | [-> Hpos]].
    + rewrite cmove_0 by (try apply limbs24_int32; congruence).
      apply IH; try assumption; try congruence. lia.
    + assert (Hr24 : limbs24 r').
      { apply limbs24_of_value; [intro E; subst r'; rewrite Hlf in Hlr; vm_compute in Hlr; discriminate Hlr | exact Hr' |].
        rewrite Hlr. lia. }
      rewrite cmove_1 by (try apply limbs24_int32; try assumption; congruence).
      pose proof (IH r' r' m' HM ltac:(congruence) ltac:(congruence) Hr24 Hm' Hvm' ltac:(lia)) as IH'.
      destruct (reduce_loop n r' r' m') as [[f' r''] m''].
      destruct IH' as (H1 & H2 & H3 & H4). repeat split; try assumption.
      rewrite H4, Hvr, Hvm'.
      replace (0 + big_value fl - M * 2 ^ Z.of_nat n) with (big_value fl + (- 2 ^ Z.of_nat n) * M) by ring.
      apply Z_mod_plus_full.
Qed.

Lemma In_seq_range (X lo n : Z) :
  0 <= lo -> 0 <= n -> lo <= X < lo + n -> In X (map Z.of_nat (seq (Z.to_nat lo) (Z.to_nat n))).
Proof.
  intros Hlo Hn HX. apply in_map_iff. exists (Z.to_nat X). split; [lia |].
  apply in_seq. lia.
Qed.

(** [logb2(XES - 1)] for the excesses [reduce] handles by shifting alone. *)
Lemma logb2_small (X : Z) :
  1 <= X <= 16 -> 0 <= logb2 (X - 1) <= 4 /\ X <= 2 ^ logb2 (X - 1).
Proof.
  intros HX.
  assert (Hall : forallb (fun X => (0 <=? logb2 (X - 1)) && (logb2 (X - 1) <=? 4) &&
                                   (X <=? 2 ^ logb2 (X - 1)))
                   (map Z.of_nat (seq 1 16)) = true) by (vm_compute; reflexivity).
  rewrite forallb_forall in Hall.
  specialize (Hall X (In_seq_range X 1 16 ltac:(lia) ltac:(lia) ltac:(lia))).
  apply andb_prop in Hall as [Hall H3]. apply andb_prop in Hall as [H1 H2].
  apply Z.leb_le in H1, H2, H3. lia.
Qed.

(** [Modulus << sb] for the shifts [reduce] uses when [XES <= 16]. *)
Lemma fshl_Modulus_small (sb : Z) :
  0 <= sb <= 4 ->
  length (fshl Modulus sb) = Z.to_nat NLEN /\ limbs24 (fshl Modulus sb) /\
  big_value (fshl Modulus sb) = p * 2 ^ sb.
Proof.
  intros Hsb.
  assert (Hall : forallb (fun sb => (Nat.eqb (length (fshl Modulus sb)) (Z.to_nat NLEN)) &&
                   forallb (fun x => (0 <=? x) && (x <? 2 ^ 24)) (fshl Modulus sb) &&
                   (big_value (fshl Modulus sb) =? p * 2 ^ sb))
                   (map Z.of_nat (seq 0 5)) = true) by (vm_compute; reflexivity).
  rewrite forallb_forall in Hall.
  specialize (Hall sb (In_seq_range sb 0 5 ltac:(lia) ltac:(lia) ltac:(lia))).
  apply andb_prop in Hall as [Hall H3]. apply andb_prop in Hall as [H1 H2].
  apply Nat.eqb_eq in H1. apply Z.eqb_eq in H3.
  split; [exact H1 |]. split; [| exact H3].
  apply Forall_range_forallb. exact H2.
Qed.

Lemma reduce_small_path (x : FP) :
  XES x <= 16 ->
  reduce x =
  let '(fx, _, _) := reduce_loop (Z.to_nat (logb2 (XES x - 1))) (norm (f x)) Modulus
                       (fshl Modulus (logb2 (XES x - 1))) in
  mkFP fx 1.
Proof.
  intros H. unfold reduce. replace (XES x >? 16) with false by lia. reflexivity.
Qed.

Lemma p_pos : 0 < p.
Proof. vm_compute. reflexivity. Qed.

Lemma p_bound : 16 * p < 2 ^ (BASEBITS * NLEN).
Proof. vm_compute. reflexivity. Qed.

(** ** Claim C10: [BIG.ssn] halves its modulus argument, and [FP.reduce]
    relies on it *)

(** C10: for normalised [a] and [m], [BIG.ssn(r, a, m)] overwrites [m]
    with [m >> 1], writes [r = a - (m >> 1)] and returns 1 exactly when
    [a < m >> 1]; [FP.reduce] (on the path [XES <= 16]) shifts the modulus
    left once by [sb = logb2(XES - 1)] and its [sb] rounds of [ssn] halve
    it back to the modulus, leaving [f mod p] normalised. *)
Theorem ssn_halves_m_for_reduce (a m : BIG) (x : FP) :
  length a = Z.to_nat NLEN -> length m = Z.to_nat NLEN -> limbs24 a -> limbs24 m ->
  1 <= XES x <= 16 -> length (f x) = Z.to_nat NLEN ->
  Forall (fun l => - 2 ^ 30 <= l < 2 ^ 30) (f x) ->
  0 <= big_value (f x) < XES x * p ->
  (let '(r, m', b) := ssn a m in
   big_value m' = big_value m / 2 /\ limbs24 m' /\
   big_value r = big_value a - big_value m' /\
   (b = 0 \/ b = 1) /\ (b = 1 <-> big_value a < big_value m')) /\
  (let sb := logb2 (XES x - 1) in
   big_value (fshl Modulus sb) = p * 2 ^ sb /\ XES x <= 2 ^ sb /\
   let '(fx, _, m') := reduce_loop (Z.to_nat sb) (norm (f x)) Modulus (fshl Modulus sb) in
   big_value m' = p /\ f (reduce x) = fx /\ limbs24 fx /\
   big_value fx = big_value (f x) mod p /\ XES (reduce x) = 1).
Proof.
  intros Hla Hlm Ha Hm HX Hlf Hf Hvf. split.
  - unfold ssn.
    assert (Hne : a <> []) by (intro E; subst a; discriminate Hla).
    pose proof (ssn_aux_spec a m 0 ltac:(congruence) Hne Ha Hm ltac:(lia)) as Hs.
    destruct (ssn_aux 0 a m) as [[r m'] b].
    destruct Hs as (_ & _ & Hm' & Hvm & _ & Hvr & Hb).
    split; [exact Hvm |]. split; [exact Hm' |]. split; [lia |].
    destruct Hb as [[-> Hb] | [-> Hb]]; split; try lia.
  - cbv zeta.
    destruct (logb2_small (XES x) HX) as [Hsb Hpow].
    destruct (fshl_Modulus_small (logb2 (XES x - 1)) Hsb) as (Hlm' & Hm' & Hvm').
    split; [exact Hvm' |]. split; [exact Hpow |].
    destruct (norm_postcondition (f x) Hlf Hf) as (Hln & Hn & Hvn & _).
    assert (Hn24 : limbs24 (norm (f x))).
    { apply limbs24_of_value; [intro E; rewrite E in Hln; vm_compute in Hln; discriminate Hln | exact Hn |].
      rewrite Hln, Hvn. pose proof p_bound. rewrite Z2Nat.id by (vm_compute; congruence). nia. }
    pose proof (reduce_loop_spec (Z.to_nat (logb2 (XES x - 1))) (norm (f x)) Modulus
                  (fshl Modulus (logb2 (XES x - 1))) p p_pos Hln Hlm' Hn24 Hm') as Hl.
    rewrite Z2Nat.id in Hl by lia.
    rewrite (reduce_small_path x) by lia.
    destruct (reduce_loop _ (norm (f x)) Modulus _) as [[fx r'] m'].
    destruct Hl as (H1 & H2 & H3 & H4); [lia | rewrite Hvn; nia |].
    split; [exact H3 |]. split; [reflexivity |]. split; [exact H1 |].
    split; [rewrite H4, Hvn; reflexivity | reflexivity].
Qed.

Lemma ssn_halves_m_for_reduce_witness :
  let a := fshl Modulus 2 in
  let m := fshl Modulus 3 in
  let x := mkFP (to_limbs (Z.to_nat NLEN) (5 * p + 7)) 6 in
  (length a = Z.to_nat NLEN /\ length m = Z.to_nat NLEN /\ limbs24 a /\ limbs24 m /\
   1 <= XES x <= 16 /\ length (f x) = Z.to_nat NLEN /\
   Forall (fun l => - 2 ^ 30 <= l < 2 ^ 30) (f x) /\
   0 <= big_value (f x) < XES x * p) /\
  ((let '(r, m', b) := ssn a m in
    big_value m' = big_value m / 2 /\ limbs24 m' /\
    big_value r = big_value a - big_value m' /\
    (b = 0 \/ b = 1) /\ (b = 1 <-> big_value a < big_value m')) /\
   (let sb := logb2 (XES x - 1) in
    big_value (fshl Modulus sb) = p * 2 ^ sb /\ XES x <= 2 ^ sb /\
    let '(fx, _, m') := reduce_loop (Z.to_nat sb) (norm (f x)) Modulus (fshl Modulus sb) in
    big_value m' = p /\ f (reduce x) = fx /\ limbs24 fx /\
    big_value fx = big_value (f x) mod p /\ XES (reduce x) = 1)).
Proof.
  intros a m x.
  assert (H1 : length a = Z.to_nat NLEN) by (vm_compute; reflexivity).
  assert (H2 : length m = Z.to_nat NLEN) by (vm_compute; reflexivity).
  assert (H3 : limbs24 a) by (apply Forall_range_forallb; vm_compute; reflexivity).
  assert (H4 : limbs24 m) by (apply Forall_range_forallb; vm_compute; reflexivity).
  assert (H5 : 1 <= XES x <= 16) by (vm_compute; split; congruence).
  assert (H6 : length (f x) = Z.to_nat NLEN) by (vm_compute; reflexivity).
  assert (H7 : Forall (fun l => - 2 ^ 30 <= l < 2 ^ 30) (f x))
    by (apply Forall_range_forallb; vm_compute; reflexivity).
  assert (H8 : 0 <= big_value (f x) < XES x * p) by (vm_compute; split; congruence).
  split; [exact (conj H1 (conj H2 (conj H3 (conj H4 (conj H5 (conj H6 (conj H7 H8))))))) |].
  exact (ssn_halves_m_for_reduce a m x H1 H2 H3 H4 H5 H6 H7 H8).
Defined.

(** ** The field Z/pZ as a ring *)

Lemma Fp_ext (a b : Fp) : Fp_val a = Fp_val b -> a = b.
Proof.
  intros H; destruct a as [a Ha], b as [b Hb].
  unfold Fp_val, proj1_sig in H; subst b.
  rewrite (Eqdep_dec.UIP_dec Z.eq_dec Ha Hb); reflexivity.
Qed.

Lemma Fp_of_Z_val (a : Fp) : Fp_of_Z (Fp_val a) = a.
Proof. apply Fp_ext; destruct a as [a Ha]; exact Ha. Qed.

Lemma Fp_of_Z_mod (u v : Z) : u mod p = v mod p -> Fp_of_Z u = Fp_of_Z v.
Proof. intros H; apply Fp_ext; exact H. Qed.

Lemma p_neq0 : p <> 0.
Proof. vm_compute; intro Hp; discriminate Hp. Qed.

Lemma Fp_add_of_Z (u v : Z) : Fp_add (Fp_of_Z u) (Fp_of_Z v) = Fp_of_Z (u + v).
Proof. apply Fp_of_Z_mod; cbn [Fp_val Fp_of_Z proj1_sig]; rewrite <- Zplus_mod; reflexivity. Qed.

Lemma Fp_mul_of_Z (u v : Z) : Fp_mul (Fp_of_Z u) (Fp_of_Z v) = Fp_of_Z (u * v).
Proof. apply Fp_of_Z_mod; cbn [Fp_val Fp_of_Z proj1_sig]; rewrite <- Zmult_mod; reflexivity. Qed.

Lemma Fp_sub_of_Z (u v : Z) : Fp_sub (Fp_of_Z u) (Fp_of_Z v) = Fp_of_Z (u - v).
Proof. apply Fp_of_Z_mod; cbn [Fp_val Fp_of_Z proj1_sig]; rewrite <- Zminus_mod; reflexivity. Qed.

Lemma Fp_opp_of_Z (u : Z) : Fp_opp (Fp_of_Z u) = Fp_of_Z (- u).
Proof.
  apply Fp_of_Z_mod; cbn [Fp_val Fp_of_Z proj1_sig].
  replace (- (u mod p)) with (0 - u mod p) by ring.
  rewrite Zminus_mod_idemp_r. reflexivity.
Qed.

Ltac Fp_gen a := rewrite <- (Fp_of_Z_val a); generalize (Fp_val a); clear a; intro a.

Lemma Fp_rt : ring_theory Fp_zero Fp_one Fp_add Fp_mul Fp_sub Fp_opp (@eq Fp).
Proof.
  unfold Fp_zero, Fp_one.
  constructor; intros;
    repeat match goal with a : Fp |- _ => Fp_gen a end;
    rewrite ?Fp_add_of_Z, ?Fp_mul_of_Z, ?Fp_sub_of_Z, ?Fp_opp_of_Z,
      ?Fp_add_of_Z, ?Fp_mul_of_Z;
    f_equal; ring.
Qed.

Lemma Fp_morph : ring_morph Fp_zero Fp_one Fp_add Fp_mul Fp_sub Fp_opp (@eq Fp)
  0 1 Z.add Z.mul Z.sub Z.opp Z.eqb Fp_of_Z.
Proof.
  constructor; intros; try reflexivity;
    rewrite ?Fp_add_of_Z, ?Fp_mul_of_Z, ?Fp_sub_of_Z, ?Fp_opp_of_Z; try reflexivity.
  match goal with H : (_ =? _) = true |- _ => apply Z.eqb_eq in H; rewrite H; reflexivity end.
Qed.

Ltac Fp_cst t :=
  match t with
  | Fp_of_Z ?z => match isZcst z with true => z | _ => constr:(InitialRing.NotConstant) end
  | Fp_zero => constr:(0%Z)
  | Fp_one => constr:(1%Z)
  | _ => constr:(InitialRing.NotConstant)
  end.

Add Ring Fp_ring : Fp_rt (morphism Fp_morph, constants [Fp_cst]).

Lemma Fp_equals_eq (a b : Fp) : Fp_equals a b = true <-> a = b.
Proof.
  unfold Fp_equals; rewrite Z.eqb_eq; split; [apply Fp_ext | intros ->; reflexivity].
Qed.

Lemma Fp_iszilch_zero (a : Fp) : a = Fp_zero -> Fp_iszilch a = true.
Proof. intros ->; reflexivity. Qed.

Lemma Fp_imul_mul (a : Fp) (c : Z) : Fp_imul a c = Fp_mul a (Fp_of_Z c).
Proof.
  Fp_gen a; rewrite Fp_mul_of_Z; apply Fp_of_Z_mod; unfold Fp_imul, Fp_val, Fp_of_Z, proj1_sig.
  rewrite Zmult_mod_idemp_l; reflexivity.
Qed.

(** [a - b = q * F] with [F = 0] gives [a = b]. *)
Lemma Fp_eq_by_multiple (a b q F : Fp) :
  Fp_sub a b = Fp_mul q F -> F = Fp_zero -> a = b.
Proof.
  intros H HF; rewrite HF in H.
  transitivity (Fp_add (Fp_sub a b) b); [ring | rewrite H; ring].
Qed.

(** ** The complete addition law of ECP *)

(** C6: on the curve [y^2 z = x^3 + 2 z^3] (every point, the point at
    infinity included), [P.add(P)] is projectively equal to [P.dbl()] by
    [ECP.equals], and [P.add(neg(P))] is the point at infinity by
    [ECP.is_infinity]; the formulas have no special case for either. *)
Theorem ecp_add_complete (P : ECP.t) (H : ECP.on_curve P = true) :
  ECP.equals (ECP.add P P) (ECP.dbl P) = true /\
  ECP.is_infinity (ECP.add P (ECP.neg P)) = true.
Proof.
  destruct P as [X Y Z].
  unfold ECP.on_curve in H; apply Fp_equals_eq in H.
  unfold ECP.equals, ECP.is_infinity, ECP.add, ECP.dbl, ECP.neg, Fp_sqr, Fp_rsub in *.
  cbn [ECP.x ECP.y ECP.z] in *.
  rewrite !Fp_imul_mul in *.
  change (3 * CURVE_B_I) with 6; change CURVE_B_I with 2 in H.
  pose (F := Fp_sub (Fp_mul (Fp_mul Y Y) Z)
               (Fp_add (Fp_mul (Fp_mul X X) X) (Fp_mul (Fp_mul (Fp_mul Z Z) Z) (Fp_of_Z 2)))).
  assert (HF : F = Fp_zero) by (unfold F; rewrite H; ring).
  split.
  - apply andb_true_intro; split; apply Fp_equals_eq.
    + apply (Fp_eq_by_multiple _ _
        (Fp_sub (Fp_mul (Fp_of_Z 12) (Fp_mul X (Fp_mul (Fp_mul Y Y) (Fp_mul Y Y))))
                (Fp_mul (Fp_of_Z 216) (Fp_mul (Fp_mul X (Fp_mul Y Y)) (Fp_mul Z Z))))
        F); [unfold F; ring | exact HF].
    + apply (Fp_eq_by_multiple _ _
        (Fp_sub (Fp_mul (Fp_of_Z 6) (Fp_mul Y (Fp_mul (Fp_mul Y Y) (Fp_mul Y Y))))
           (Fp_add (Fp_mul (Fp_of_Z 72) (Fp_mul (Fp_mul Y (Fp_mul Y Y)) (Fp_mul Z Z)))
                   (Fp_mul (Fp_of_Z 648) (Fp_mul Y (Fp_mul (Fp_mul Z Z) (Fp_mul Z Z))))))
        F); [unfold F; ring | exact HF].
  - apply andb_true_intro; split; apply Fp_iszilch_zero; ring.
Qed.

(** The generator [(Gx, Gy) = (-1, 1)] of G1 as a projective point. *)
Lemma ecp_add_complete_witness :
  let G := ECP.mk (Fp_of_Z (big_value CURVE_Gx)) (Fp_of_Z (big_value CURVE_Gy)) (Fp_of_Z 1) in
  ECP.on_curve G = true /\
  (ECP.equals (ECP.add G G) (ECP.dbl G) = true /\
   ECP.is_infinity (ECP.add G (ECP.neg G)) = true).
Proof.
  intros G.
  assert (H : ECP.on_curve G = true) by (vm_compute; reflexivity).
  exact (conj H (ecp_add_complete G H)).
Defined.

(** ** Decoding of out-of-range coordinates *)

(** C5: [ECP.fromBytes] returns the point at infinity for an uncompressed
    G1 encoding whose x is the generator's [Gx] plus [p], whatever [setxi]
    does; [ECP2.fromBytes] accepts the G2 generator's encoding with [x.a]
    replaced by [Pxa + p] (a 32-byte value [>= p] by [BIG.comp]) and
    returns a finite point whose [x.a] is [Pxa]. *)
Theorem ecp2_fromBytes_accepts_unreduced :
  let g1bad := 4 :: toBytes (norm (big_add CURVE_Gx Modulus)) ++ toBytes CURVE_Gy in
  let bad := ECP2.toBytes_affine (norm (big_add CURVE_Pxa Modulus))
               CURVE_Pxb CURVE_Pya CURVE_Pyb in
  (forall setxi, ECP.is_infinity (ECP.fromBytes setxi g1bad) = true) /\
  comp (fromBytes (firstn 32 bad)) Modulus = 1 /\
  ECP2.is_infinity (ECP2.fromBytes bad) = false /\
  Fp_val (FP2.a (ECP2.x (ECP2.fromBytes bad))) = big_value CURVE_Pxa.
Proof.
  intros g1bad bad; split; [intros setxi; vm_compute; reflexivity |].
  vm_compute; split; [reflexivity | split; reflexivity].
Qed.

(** ** FP2 and FP4 as rings *)

Lemma FP2_ext (w v : FP2.t) : FP2.a w = FP2.a v -> FP2.b w = FP2.b v -> w = v.
Proof. destruct w, v; cbn; intros -> ->; reflexivity. Qed.

Ltac FP2_comp :=
  apply FP2_ext;
  unfold FP2.sub, FP2.mul_ip, FP2.add, FP2.mul, FP2.neg, FP2.zero, FP2.one, FP2.of_Z,
    FP2.times_i;
  cbn [FP2.a FP2.b]; ring.

Lemma FP2_rt : ring_theory FP2.zero FP2.one FP2.add FP2.mul FP2.sub FP2.neg (@eq FP2.t).
Proof. constructor; intros; FP2_comp. Qed.

Add Ring FP2_ring : FP2_rt.

Lemma FP2_mul_ip_eq (w : FP2.t) : FP2.mul_ip w = FP2.mul w (FP2.add FP2.one FP2_i).
Proof. unfold FP2_i; FP2_comp. Qed.

Lemma FP2_times_i_eq (w : FP2.t) : FP2.times_i w = FP2.mul w FP2_i.
Proof. unfold FP2_i; FP2_comp. Qed.

Lemma FP4_ext (x y : FP4.t) : FP4.a x = FP4.a y -> FP4.b x = FP4.b y -> x = y.
Proof. destruct x, y; cbn; intros -> ->; reflexivity. Qed.

Ltac FP4_comp :=
  apply FP4_ext;
  unfold FP4.sub, FP4.add, FP4.mul, FP4.neg, FP4.of_Z, FP4.conj, FP4.nconj,
    FP4.sqr, FP4.times_i, FP4_s;
  cbn [FP4.a FP4.b];
  change (FP2.of_Z 0) with FP2.zero; change (FP2.of_Z 1) with FP2.one;
  rewrite ?FP2_mul_ip_eq, ?FP2_times_i_eq;
  ring.

Lemma FP4_rt : ring_theory (FP4.of_Z 0) (FP4.of_Z 1) FP4.add FP4.mul FP4.sub FP4.neg
  (@eq FP4.t).
Proof. constructor; intros; FP4_comp. Qed.

Add Ring FP4_ring : FP4_rt.

Lemma FP4_times_i_eq (x : FP4.t) : FP4.times_i x = FP4.mul x FP4_s.
Proof. FP4_comp. Qed.

Lemma FP4_sqr_eq (x : FP4.t) : FP4.sqr x = FP4.mul x x.
Proof. FP4_comp. Qed.

Lemma FP4_nconj_eq (x : FP4.t) : FP4.nconj x = FP4.neg (FP4.conj x).
Proof. FP4_comp. Qed.

Lemma FP4_conj_add (x y : FP4.t) : FP4.conj (FP4.add x y) = FP4.add (FP4.conj x) (FP4.conj y).
Proof. FP4_comp. Qed.

Lemma FP4_conj_sub (x y : FP4.t) : FP4.conj (FP4.sub x y) = FP4.sub (FP4.conj x) (FP4.conj y).
Proof. FP4_comp. Qed.

Lemma FP4_conj_neg (x : FP4.t) : FP4.conj (FP4.neg x) = FP4.neg (FP4.conj x).
Proof. FP4_comp. Qed.

Lemma FP4_conj_mul (x y : FP4.t) : FP4.conj (FP4.mul x y) = FP4.mul (FP4.conj x) (FP4.conj y).
Proof. FP4_comp. Qed.

Lemma FP4_conj_s : FP4.conj FP4_s = FP4.neg FP4_s.
Proof. FP4_comp. Qed.

Lemma FP4_conj_conj (x : FP4.t) : FP4.conj (FP4.conj x) = x.
Proof. FP4_comp. Qed.

Lemma FP4_conj_0 : FP4.conj (FP4.of_Z 0) = FP4.of_Z 0.
Proof. FP4_comp. Qed.

Lemma FP4_conj_1 : FP4.conj (FP4.of_Z 1) = FP4.of_Z 1.
Proof. FP4_comp. Qed.

(** ** FP12 algebra *)

Lemma FP12_ext (x y : FP12.t) :
  FP12.a x = FP12.a y -> FP12.b x = FP12.b y -> FP12.c x = FP12.c y -> x = y.
Proof. destruct x, y; cbn; intros -> -> ->; reflexivity. Qed.

Ltac FP12_comp :=
  apply FP12_ext;
  unfold FP12.mul, FP12.usqr, FP12.conj, FP12.inverse_adj, FP12.one;
  cbn [FP12.a FP12.b FP12.c];
  rewrite ?FP4_times_i_eq, ?FP4_sqr_eq, ?FP4_nconj_eq;
  repeat first [rewrite FP4_conj_add | rewrite FP4_conj_sub | rewrite FP4_conj_neg
    | rewrite FP4_conj_mul | rewrite FP4_conj_s | rewrite FP4_conj_conj
    | rewrite FP4_conj_0 | rewrite FP4_conj_1];
  ring.

Lemma FP12_mul_comm (x y : FP12.t) : FP12.mul x y = FP12.mul y x.
Proof. FP12_comp. Qed.

Lemma FP12_mul_assoc (x y z : FP12.t) :
  FP12.mul x (FP12.mul y z) = FP12.mul (FP12.mul x y) z.
Proof. FP12_comp. Qed.

Lemma FP12_mul_one (x : FP12.t) : FP12.mul x FP12.one = x.
Proof. destruct x; FP12_comp. Qed.

Lemma FP12_conj_conj (x : FP12.t) : FP12.conj (FP12.conj x) = x.
Proof. destruct x; FP12_comp. Qed.

Lemma FP12_conj_mul (x y : FP12.t) :
  FP12.conj (FP12.mul x y) = FP12.mul (FP12.conj x) (FP12.conj y).
Proof. FP12_comp. Qed.

Lemma FP12_adj_mul (x y : FP12.t) :
  FP12.inverse_adj (FP12.mul x y) = FP12.mul (FP12.inverse_adj x) (FP12.inverse_adj y).
Proof. FP12_comp. Qed.

Lemma FP12_conj_one : FP12.conj FP12.one = FP12.one.
Proof. FP12_comp. Qed.

Lemma FP12_adj_one : FP12.inverse_adj FP12.one = FP12.one.
Proof. FP12_comp. Qed.

(** [usqr] squares every element whose conjugate is its adjugate. *)
Lemma FP12_usqr_eq (x : FP12.t) :
  FP12.conj x = FP12.inverse_adj x -> FP12.usqr x = FP12.mul x x.
Proof.
  destruct x as [a b c]; intros H.
  pose proof (f_equal FP12.a H) as H1; pose proof (f_equal FP12.b H) as H2;
  pose proof (f_equal FP12.c H) as H3; clear H.
  unfold FP12.conj, FP12.inverse_adj in H1, H2, H3; cbn [FP12.a FP12.b FP12.c] in H1, H2, H3.
  rewrite FP4_times_i_eq, FP4_sqr_eq in H1.
  rewrite FP4_times_i_eq, FP4_sqr_eq, FP4_nconj_eq in H2.
  rewrite FP4_sqr_eq in H3.
  apply FP12_ext;
  unfold FP12.mul, FP12.usqr; cbn [FP12.a FP12.b FP12.c];
  rewrite ?FP4_times_i_eq, ?FP4_sqr_eq, ?FP4_nconj_eq.
  - rewrite H1; clear H1 H2 H3; ring.
  - replace (FP4.conj b) with (FP4.neg (FP4.neg (FP4.conj b))) by ring.
    rewrite H2; clear H1 H2 H3; ring.
  - rewrite H3; clear H1 H2 H3; ring.
Qed.

Lemma FP2_equals_eq (w v : FP2.t) : FP2.equals w v = true -> w = v.
Proof.
  unfold FP2.equals; intros H; apply andb_prop in H as [Ha Hb].
  apply Fp_equals_eq in Ha, Hb. apply FP2_ext; assumption.
Qed.

Lemma FP4_equals_eq (x y : FP4.t) : FP4.equals x y = true -> x = y.
Proof.
  unfold FP4.equals; intros H; apply andb_prop in H as [Ha Hb].
  apply FP4_ext; apply FP2_equals_eq; assumption.
Qed.

Lemma FP12_equals_eq (x y : FP12.t) : FP12.equals x y = true -> x = y.
Proof.
  unfold FP12.equals; intros H; apply andb_prop in H as [H Hc]; apply andb_prop in H as [Ha Hb].
  apply FP12_ext; apply FP4_equals_eq; assumption.
Qed.

(** ** Powers in the cyclotomic subgroup *)

Lemma npow_add (x : FP12.t) (m n : nat) :
  FP12.npow x (m + n) = FP12.mul (FP12.npow x m) (FP12.npow x n).
Proof.
  induction m as [| m IH]; cbn [Nat.add FP12.npow].
  - rewrite FP12_mul_comm, FP12_mul_one. reflexivity.
  - rewrite IH, FP12_mul_assoc. reflexivity.
Qed.

Lemma npow_one (x : FP12.t) : FP12.npow x 1 = x.
Proof. cbn. apply FP12_mul_one. Qed.

Lemma npow_conj_adj (x : FP12.t) (n : nat) :
  FP12.conj x = FP12.inverse_adj x ->
  FP12.conj (FP12.npow x n) = FP12.inverse_adj (FP12.npow x n).
Proof.
  intros H; induction n as [| n IH]; cbn [FP12.npow].
  - rewrite FP12_conj_one, FP12_adj_one. reflexivity.
  - rewrite FP12_conj_mul, FP12_adj_mul, H, IH. reflexivity.
Qed.

Lemma npow_cancel (x : FP12.t) (n : nat) :
  FP12.mul x (FP12.conj x) = FP12.one ->
  FP12.mul (FP12.npow x (S n)) (FP12.conj x) = FP12.npow x n.
Proof.
  intros H; cbn [FP12.npow].
  rewrite (FP12_mul_comm x), <- FP12_mul_assoc, H, FP12_mul_one. reflexivity.
Qed.

Lemma bit_01 (w : BIG) (n : Z) : bit w n = 0 \/ bit w n = 1.
Proof. unfold bit; destruct (_ >? 0); auto. Qed.

Section pow_loop_invariant.

Variable x : FP12.t.
Hypothesis Hunit : FP12.mul x (FP12.conj x) = FP12.one.
Hypothesis Hcyc : FP12.conj x = FP12.inverse_adj x.
Variables e3 e1 : BIG.
Variable E : Z -> Z.

(** One loop pass turns [w = x^E(i+1)] into [x^E(i)] when the signed
    digit [bit(e3, i) - bit(e1, i)] links the two exponents. *)
Lemma pow_loop_npow (n : nat) (i : Z) :
  (forall j, i - Z.of_nat n < j <= i ->
     E j = 2 * E (j + 1) + (bit e3 j - bit e1 j) /\ 0 <= E j) ->
  0 <= E (i + 1) ->
  FP12.pow_loop n i e3 e1 x (FP12.npow x (Z.to_nat (E (i + 1)))) =
  FP12.npow x (Z.to_nat (E (i - Z.of_nat n + 1))).
Proof.
  revert i; induction n as [| n IH]; intros i Hdig Hpos.
  - cbn [FP12.pow_loop]. rewrite Z.sub_0_r. reflexivity.
  - cbn [FP12.pow_loop].
    destruct (Hdig i ltac:(lia)) as [Hi Hi0].
    rewrite FP12_usqr_eq by (apply npow_conj_adj; exact Hcyc).
    rewrite <- npow_add.
    replace (i - Z.of_nat (S n) + 1) with (i - 1 - Z.of_nat n + 1) by lia.
    assert (Hdig' : forall j, i - 1 - Z.of_nat n < j <= i - 1 ->
              E j = 2 * E (j + 1) + (bit e3 j - bit e1 j) /\ 0 <= E j)
      by (intros j Hj; apply Hdig; lia).
    rewrite <- (IH (i - 1) Hdig' ltac:(replace (i - 1 + 1) with i by lia; lia)).
    replace (i - 1 + 1) with i by lia.
    destruct (bit_01 e3 i) as [B3 | B3], (bit_01 e1 i) as [B1 | B1];
      rewrite B3, B1 in Hi |- *; cbn -[FP12.mul FP12.conj FP12.npow].
    + f_equal. f_equal. lia.
    + rewrite FP12_conj_conj.
      replace (Z.to_nat (E (i + 1)) + Z.to_nat (E (i + 1)))%nat
        with (S (Z.to_nat (E i))) by lia.
      rewrite npow_cancel by exact Hunit. reflexivity.
    + f_equal. rewrite FP12_mul_comm.
      change (FP12.mul x ?y) with (FP12.npow x (S (Z.to_nat (E (i + 1)) + Z.to_nat (E (i + 1))))).
      f_equal. lia.
    + f_equal. f_equal. lia.
Qed.

End pow_loop_invariant.

(** ** Bits, lengths and small multiples of normalised BIGs *)

Lemma limb_value (w : BIG) (q : Z) :
  limbs24 w -> 0 <= q -> limb w q = (big_value w / 2 ^ (BASEBITS * q)) mod 2 ^ 24.
Proof.
  unfold limb, limbs24, BASEBITS. intros Hw. revert q.
  induction Hw as [| x w Hx Hw IH]; intros q Hq.
  - cbn [big_value]. rewrite Z.div_0_l by (apply Z.pow_nonzero; lia).
    destruct (Z.to_nat q); reflexivity.
  - cbn [big_value]. unfold BASEBITS.
    destruct (Z.eq_dec q 0) as [-> | Hq0].
    + cbn [nth Z.to_nat]. replace (24 * 0) with 0 by reflexivity. rewrite Z.pow_0_r, Z.div_1_r.
      rewrite (Z.mul_comm (2 ^ 24)), Z.mod_add, Z.mod_small by lia.
      reflexivity.
    + replace (Z.to_nat q) with (S (Z.to_nat (q - 1))) by lia. cbn [nth].
      rewrite IH by lia.
      replace (24 * q) with (24 + 24 * (q - 1)) by lia.
      rewrite Z.pow_add_r, <- Z.div_div by lia.
      assert (Hd : (x + 2 ^ 24 * big_value w) / 2 ^ 24 = big_value w).
      { rewrite (Z.mul_comm (2 ^ 24)), Z.div_add, Z.div_small by lia. lia. }
      rewrite Hd. reflexivity.
Qed.

Lemma land_pow2 (a k : Z) :
  0 <= k -> Z.land a (2 ^ k) = if Z.testbit a k then 2 ^ k else 0.
Proof.
  intros Hk. apply Z.bits_inj'. intros m Hm.
  rewrite Z.land_spec, Z.pow2_bits_eqb by lia.
  destruct (Z.testbit a k) eqn:Ea.
  - rewrite Z.pow2_bits_eqb by lia. destruct (Z.eqb_spec k m); subst.
    + rewrite Ea. reflexivity.
    + apply andb_false_r.
  - rewrite Z.bits_0. destruct (Z.eqb_spec k m); subst.
    + rewrite Ea. reflexivity.
    + apply andb_false_r.
Qed.

(** [bit(j)] of a normalised BIG is bit [j] of its value. *)
Lemma bit_value (w : BIG) (j : Z) :
  limbs24 w -> 0 <= j -> bit w j = (big_value w / 2 ^ j) mod 2.
Proof.
  intros Hw Hj. unfold bit.
  pose proof (Z.mod_pos_bound j BASEBITS ltac:(unfold BASEBITS; lia)) as Hr.
  pose proof (Z.div_pos j BASEBITS Hj ltac:(unfold BASEBITS; lia)) as Hq.
  rewrite limb_value by assumption.
  set (r := j mod BASEBITS) in *. set (q := j / BASEBITS) in *.
  assert (Hs : js_shl 1 r = 2 ^ r).
  { unfold js_shl. rewrite (ToInt32_id 1) by lia.
    rewrite (Z.mod_small r 32) by (unfold BASEBITS in Hr; lia).
    rewrite Z.shiftl_1_l. apply ToInt32_id.
    assert (2 ^ r <= 2 ^ 24) by (apply Z.pow_le_mono_r; unfold BASEBITS in Hr; lia). lia. }
  rewrite Hs. unfold js_and.
  pose proof (big_value_bounds _ Hw) as Hb.
  set (L := (big_value w / 2 ^ (BASEBITS * q)) mod 2 ^ 24).
  assert (HL : 0 <= L < 2 ^ 24) by (apply Z.mod_pos_bound; lia).
  rewrite (ToInt32_id L) by lia.
  assert (2 ^ r < 2 ^ 24) by (apply Z.pow_lt_mono_r; unfold BASEBITS in Hr; lia).
  assert (0 < 2 ^ r) by (apply Z.pow_pos_nonneg; lia).
  rewrite (ToInt32_id (2 ^ r)) by lia.
  rewrite land_pow2 by lia.
  assert (Hbit : Z.testbit L r = Z.testbit (big_value w) j).
  { unfold L. replace (2 ^ 24) with (2 ^ BASEBITS) by reflexivity.
    rewrite <- Z.shiftr_div_pow2 by (unfold BASEBITS; lia).
    rewrite Z.mod_pow2_bits_low by lia.
    rewrite Z.shiftr_spec by lia. f_equal.
    unfold r, q. pose proof (Z.div_mod j BASEBITS ltac:(unfold BASEBITS; lia)). lia. }
  rewrite Hbit, <- Z.testbit_spec' by lia.
  destruct (Z.testbit (big_value w) j); cbn; [destruct (Z.gtb_spec (2 ^ r) 0) | ]; lia.
Qed.

Lemma limbs24_app (l1 l2 : BIG) : limbs24 (l1 ++ l2) <-> limbs24 l1 /\ limbs24 l2.
Proof. unfold limbs24. apply Forall_app. Qed.

(** [norm] leaves a normalised BIG as it is, value and limbs. *)
Lemma norm_limbs24 (w : BIG) :
  w <> [] -> limbs24 w ->
  length (norm w) = length w /\ limbs24 (norm w) /\ big_value (norm w) = big_value w.
Proof.
  intros Hne Hw.
  assert (Hw' : Forall (fun x => - 2 ^ 30 <= x < 2 ^ 30) w)
    by (eapply Forall_impl; [| exact Hw]; cbn; intros; lia).
  destruct (norm_aux_spec w 0 Hne Hw') as (Hl & Hf & Hv); [lia |].
  fold (norm w) in Hl, Hf, Hv.
  repeat split; [exact Hl | | lia].
  apply limbs24_of_value; [intro E; rewrite E in Hl; destruct w; cbn in Hl; congruence | exact Hf |].
  rewrite Hl, Hv, Z.add_0_l. apply big_value_bounds, Hw.
Qed.

Lemma div_exact_sub (a m : Z) : 0 < m -> (a - a mod m) / m = a / m.
Proof.
  intros Hm. rewrite (Z.div_mod a m) at 1 by lia.
  replace (m * (a / m) + a mod m - a mod m) with ((a / m) * m) by ring.
  apply Z.div_mul. lia.
Qed.

(** [pmul(c)] by a small non-negative [c]: normalised limbs, and the
    returned carry is the part of [c * w] above the top limb. *)
Lemma pmul_aux_spec (c : Z) (w : BIG) (carry : Z) :
  0 <= c -> 0 <= carry -> limbs24 w ->
  length (fst (pmul_aux c carry w)) = length w /\
  limbs24 (fst (pmul_aux c carry w)) /\ 0 <= snd (pmul_aux c carry w) /\
  big_value (fst (pmul_aux c carry w)) +
    2 ^ (BASEBITS * Z.of_nat (length w)) * snd (pmul_aux c carry w) =
  c * big_value w + carry.
Proof.
  intros Hc. revert carry. induction w as [| ak w IH]; intros carry Hcar Hw.
  - cbn [pmul_aux fst snd length big_value]. change (BASEBITS * Z.of_nat 0) with 0.
    rewrite Z.pow_0_r. repeat split; [constructor | lia | lia].
  - inversion Hw as [| ? ? Hak Hw']; subst.
    cbn [pmul_aux]. unfold muladd. rewrite js_and_BMASK, Z.add_0_r.
    rewrite div_exact_sub by (unfold BASEBITS; lia).
    change (2 ^ BASEBITS) with (2 ^ 24).
    set (pr := ak * c + carry).
    destruct (IH (pr / 2 ^ 24)) as (Hl & Hf & Hs & Hv);
      [apply Z.div_pos; unfold pr; nia | exact Hw' |].
    destruct (pmul_aux c (pr / 2 ^ 24) w) as [r cr]. cbn [fst snd length big_value] in *.
    repeat split; [congruence | constructor; [apply Z.mod_pos_bound; lia | exact Hf] | exact Hs |].
    rewrite Nat2Z.inj_succ, Z.mul_succ_r, Z.pow_add_r by (unfold BASEBITS; lia).
    pose proof (Z.div_mod pr (2 ^ 24)). unfold BASEBITS in *. unfold pr in *. nia.
Qed.

Lemma halvings_log2 (fuel : nat) (c : Z) :
  0 < c -> Z.log2 c + 1 < Z.of_nat fuel -> halvings fuel c = Some (Z.log2 c + 1).
  revert c; induction fuel as [| f IH]; intros c Hc Hf; [pose proof (Z.log2_nonneg c); lia |].
  cbn [halvings]. rewrite (proj2 (Z.eqb_neq c 0)) by lia.
  cbn [halvings]. destruct (Z.eqb_spec c 0) as [| _]; [lia |].
  pose proof (Z.log2_nonneg c).
  destruct (Z.eq_dec c 1) as [-> | Hc1].
  - destruct f as [| f]; [cbn in Hf; lia |]. reflexivity.
  - assert (Hl : Z.log2 (c / 2) = Z.log2 c - 1).
    { change 2 with (2 ^ 1). rewrite <- Z.shiftr_div_pow2 by lia.
      rewrite Z.log2_shiftr by lia.
      assert (1 <= Z.log2 c) by (apply Z.log2_le_pow2; lia). lia. }
    rewrite IH; [cbn; f_equal; lia | apply Z.div_str_pos; lia | lia].
Qed.

(** The top non-zero limb of a normalised BIG, read from the top. *)
Lemma top_limb_spec (l : BIG) :
  limbs24 l -> 0 < big_value l ->
  exists k c, top_limb (Z.of_nat (length l) - 1) (rev l) = Some (k, c) /\ 0 <= k /\
    0 < c < 2 ^ 24 /\ 2 ^ (BASEBITS * k) * c <= big_value l < 2 ^ (BASEBITS * k) * (c + 1).
Proof.
  induction l as [| x l IH] using rev_ind; intros Hl Hv; [cbn in Hv; lia |].
  apply limbs24_app in Hl as [Hl Hx]. inversion Hx as [| ? ? Hx0 _]; subst.
  rewrite big_value_app in Hv |- *. cbn [big_value] in Hv |- *.
  rewrite rev_unit, length_app. cbn [length top_limb].
  replace (Z.of_nat (length l + 1) - 1) with (Z.of_nat (length l)) by lia.
  pose proof (big_value_bounds _ Hl) as Hb.
  replace (x + 2 ^ BASEBITS * 0) with x in Hv |- * by ring.
  destruct (Z.eqb_spec x 0) as [-> | Hx1].
  - rewrite Z.mul_0_r, Z.add_0_r in Hv |- *.
    destruct (IH Hl Hv) as (k & c & Ht & Hk & Hc & Hkc). exists k, c.
    repeat split; try lia. exact Ht.
  - exists (Z.of_nat (length l)), x. repeat split; try lia; nia.
Qed.

Lemma nbits_log2 (w : BIG) :
  length w = Z.to_nat NLEN -> limbs24 w -> 0 < big_value w ->
  nbits w = Some (Z.log2 (big_value w) + 1).
Proof.
  intros Hlen Hw Hv. unfold nbits.
  assert (Hne : w <> []) by (intro E; rewrite E in Hlen; discriminate Hlen).
  destruct (norm_limbs24 w Hne Hw) as (Hl & Hf & Hnv).
  rewrite <- Hnv in Hv |- *.
  replace (NLEN - 1) with (Z.of_nat (length (norm w)) - 1) by (rewrite Hl, Hlen; reflexivity).
  destruct (top_limb_spec (norm w) Hf Hv) as (k & c & -> & Hk & Hc & Hkc).
  rewrite halvings_log2 by (try lia; assert (Z.log2 c < 24) by (apply Z.log2_lt_pow2; lia); lia).
  cbn [option_map]. f_equal.
  pose proof (Z.log2_spec c ltac:(lia)) as Hs.
  assert (Hp : 0 < 2 ^ (BASEBITS * k)) by (apply Z.pow_pos_nonneg; unfold BASEBITS; lia).
  enough (Z.log2 (big_value (norm w)) = BASEBITS * k + Z.log2 c) by lia.
  apply Z.log2_unique; [pose proof (Z.log2_nonneg c); unfold BASEBITS; lia |].
  rewrite <- Z.add_succ_r, !Z.pow_add_r by (pose proof (Z.log2_nonneg c); unfold BASEBITS in *; lia).
  split; nia.
Qed.

Lemma div3_sub (v : Z) : 0 <= v -> 3 * v / 2 - v / 2 = v.
Proof.
  intros Hv.
  pose proof (Z.div_mod (3 * v) 2 ltac:(lia)). pose proof (Z.mod_pos_bound (3 * v) 2 ltac:(lia)).
  pose proof (Z.div_mod v 2 ltac:(lia)). pose proof (Z.mod_pos_bound v 2 ltac:(lia)).
  lia.
Qed.

Lemma digit_step (A B j : Z) :
  0 <= j -> 0 <= A -> 0 <= B ->
  A / 2 ^ j - B / 2 ^ j =
  2 * (A / 2 ^ (j + 1) - B / 2 ^ (j + 1)) + ((A / 2 ^ j) mod 2 - (B / 2 ^ j) mod 2).
Proof.
  intros Hj HA HB.
  rewrite Z.pow_add_r, Z.pow_1_r, <- !Z.div_div by lia.
  pose proof (Z.div_mod (A / 2 ^ j) 2 ltac:(lia)).
  pose proof (Z.div_mod (B / 2 ^ j) 2 ltac:(lia)).
  lia.
Qed.

(** C9 (counterexample): [-1] is unitary, its conjugate being its inverse,
    but [pow] with exponent 2 does not return its square, and with exponent
    0 it returns [-1] rather than 1. *)
Lemma pow_unitary_counterexample :
  FP12.equals (FP12.mul FP12_minus_one (FP12.conj FP12_minus_one)) FP12.one = true /\
  FP12.equals (FP12.pow FP12_minus_one (BIG_of_small 2)) (FP12.npow FP12_minus_one 2) = false /\
  FP12.equals (FP12.pow FP12_minus_one (BIG_of_small 0)) (FP12.npow FP12_minus_one 0) = false.
Proof. vm_compute. split; [reflexivity | split; reflexivity]. Qed.

(** C9 (amended): for [x] in the cyclotomic subgroup, where [conj x] is the
    adjugate [inverse_adj x] and [x * conj x = 1], and a normalised exponent
    [e] with [1 <= e] and [3 e < 2^264], [pow] returns [x^e]. *)
Theorem pow_cyclotomic (x : FP12.t) (e : BIG) :
  FP12.equals (FP12.conj x) (FP12.inverse_adj x) = true ->
  FP12.equals (FP12.mul x (FP12.conj x)) FP12.one = true ->
  length e = Z.to_nat NLEN -> limbs24 e ->
  1 <= big_value e -> 3 * big_value e < 2 ^ (BASEBITS * NLEN) ->
  FP12.pow x e = FP12.npow x (Z.to_nat (big_value e)).
Proof.
  intros Hc Hu Hlen Hw H1 H3.
  apply FP12_equals_eq in Hc, Hu.
  change (2 ^ (BASEBITS * NLEN)) with (2 ^ 264) in H3.
  assert (Hne : e <> []) by (intro E; rewrite E in Hlen; discriminate Hlen).
  destruct (norm_limbs24 e Hne Hw) as (Hl1 & Hf1 & Hv1).
  unfold FP12.pow. set (e1 := norm e) in *. set (v := big_value e) in *.
  destruct (pmul_aux_spec 3 e1 0 ltac:(lia) ltac:(lia) Hf1) as (Hl3 & Hf3 & Hs3 & Hv3).
  fold (pmul e1 3) in Hl3, Hf3, Hs3, Hv3.
  rewrite Hl1, Hlen, Hv1 in Hv3. change (2 ^ (BASEBITS * Z.of_nat (Z.to_nat NLEN))) with (2 ^ 264) in Hv3.
  pose proof (big_value_bounds _ Hf3) as Hb3.
  assert (Hs0 : snd (pmul e1 3) = 0) by lia.
  assert (Hne3 : fst (pmul e1 3) <> []) by (intro E; rewrite E in Hl3; rewrite Hl1, Hlen in Hl3; discriminate Hl3).
  destruct (norm_limbs24 _ Hne3 Hf3) as (Hl3' & Hf3' & Hv3').
  set (e3 := norm (fst (pmul e1 3))) in *.
  assert (He3 : big_value e3 = 3 * v) by lia.
  rewrite (nbits_log2 e3) by (lia || congruence).
  rewrite He3.
  set (L := Z.log2 (3 * v)).
  pose proof (Z.log2_spec (3 * v) ltac:(lia)) as HL. fold L in HL. rewrite Z.pow_succ_r in HL by (apply Z.log2_nonneg).
  assert (HL1 : 1 <= L) by (apply Z.log2_le_pow2; lia).
  set (E := fun j => big_value e3 / 2 ^ j - big_value e1 / 2 ^ j).
  assert (HEL : E L = 1).
  { unfold E. rewrite He3, Hv1.
    assert (0 < 2 ^ L) by (apply Z.pow_pos_nonneg; lia).
    rewrite (Z.div_small v) by lia.
    enough (3 * v / 2 ^ L = 1) by lia.
    symmetry; apply Z.div_unique with (r := 3 * v - 2 ^ L); [left; lia | lia]. }
  rewrite <- (npow_one x) at 2.
  replace (L + 1 - 2 + 1) with L by lia.
  replace 1%nat with (Z.to_nat (E (L + 1 - 2 + 1))) by (replace (L + 1 - 2 + 1) with L by lia; rewrite HEL; reflexivity).
  rewrite (pow_loop_npow x Hu Hc e3 e1 E).
  - replace (L + 1 - 2 - Z.of_nat (Z.to_nat (L + 1 - 2)) + 1) with 1 by lia.
    unfold E. rewrite He3, Hv1. rewrite Z.pow_1_r, div3_sub by lia. reflexivity.
  - intros j Hj. unfold E.
    rewrite (bit_value e3), (bit_value e1) by (assumption || lia).
    rewrite He3, Hv1. split.
    + apply digit_step; lia.
    + assert (0 < 2 ^ j) by (apply Z.pow_pos_nonneg; lia).
      pose proof (Z.div_le_mono v (3 * v) (2 ^ j) ltac:(lia) ltac:(lia)). lia.
  - replace (L + 1 - 2 + 1) with L by lia. lia.
Qed.

Lemma pow_cyclotomic_witness :
  FP12.pow cyclotomic_sample (BIG_of_small 5) =
  FP12.npow cyclotomic_sample (Z.to_nat (big_value (BIG_of_small 5))).
Proof.
  apply pow_cyclotomic.
  - vm_compute. reflexivity.
  - vm_compute. reflexivity.
  - reflexivity.
  - apply Forall_range_forallb. reflexivity.
  - vm_compute. discriminate.
  - vm_compute. reflexivity.
Defined.


(** * Further properties of the code *)

(** ** The group law of ECP *)

Lemma Fp_eq_by_multiple2 (a b q1 F1 q2 F2 : Fp) :
  Fp_sub a b = Fp_add (Fp_mul q1 F1) (Fp_mul q2 F2) -> F1 = Fp_zero -> F2 = Fp_zero -> a = b.
Proof.
  intros H H1 H2; rewrite H1, H2 in H.
  transitivity (Fp_add (Fp_sub a b) b); [ring | rewrite H; ring].
Qed.

(** [ECP.on_curve] as [F = 0] for the curve polynomial [F]. *)
Lemma ecp_on_curve_F (X Y Z : Fp) :
  ECP.on_curve (ECP.mk X Y Z) = true ->
  Fp_sub (Fp_mul (Fp_mul Y Y) Z)
    (Fp_add (Fp_mul (Fp_mul X X) X) (Fp_mul (Fp_mul (Fp_mul Z Z) Z) (Fp_of_Z 2))) = Fp_zero.
Proof.
  unfold ECP.on_curve, Fp_sqr; cbn [ECP.x ECP.y ECP.z]; intros H; apply Fp_equals_eq in H.
  rewrite Fp_imul_mul in H. change CURVE_B_I with 2 in H. rewrite H. ring.
Qed.

(** [dbl()] maps a point of the curve [y^2 z = x^3 + 2 z^3] to a point of it. *)
Theorem ecp_dbl_on_curve (P : ECP.t) :
  ECP.on_curve P = true -> ECP.on_curve (ECP.dbl P) = true.
Proof.
  destruct P as [X1 Y1 Z1]; intros H; apply ecp_on_curve_F in H.
  unfold ECP.on_curve, ECP.dbl, Fp_sqr; cbn [ECP.x ECP.y ECP.z]; apply Fp_equals_eq.
  rewrite !Fp_imul_mul. change (3 * CURVE_B_I) with 6. change CURVE_B_I with 2.
  refine (Fp_eq_by_multiple _ _
    (Fp_add (Fp_mul (Fp_of_Z 8) (Fp_pow Y1 9))
      (Fp_add (Fp_mul (Fp_of_Z (-432)) (Fp_mul (Fp_pow Y1 7) (Fp_pow Z1 2)))
      (Fp_add (Fp_mul (Fp_of_Z 7776) (Fp_mul (Fp_pow Y1 5) (Fp_pow Z1 4)))
      (Fp_mul (Fp_of_Z (-46656)) (Fp_mul (Fp_pow Y1 3) (Fp_pow Z1 6))))))
    _ _ H).
  cbn [Fp_pow]. ring.
Qed.

Lemma ecp_dbl_on_curve_witness :
  let G := ECP.mk (Fp_of_Z (big_value CURVE_Gx)) (Fp_of_Z (big_value CURVE_Gy)) (Fp_of_Z 1) in
  ECP.on_curve G = true /\ ECP.on_curve (ECP.dbl G) = true.
Proof.
  intros G.
  assert (H : ECP.on_curve G = true) by (vm_compute; reflexivity).
  exact (conj H (ecp_dbl_on_curve G H)).
Defined.

(** [add(Q)] maps two points of the curve to a point of it, whatever the
    points are (equal, opposite or at infinity). *)
Theorem ecp_add_on_curve (P Q : ECP.t) :
  ECP.on_curve P = true -> ECP.on_curve Q = true -> ECP.on_curve (ECP.add P Q) = true.
Proof.
  destruct P as [X1 Y1 Z1], Q as [X2 Y2 Z2]; intros H1 H2.
  apply ecp_on_curve_F in H1; apply ecp_on_curve_F in H2.
  unfold ECP.on_curve, ECP.add, Fp_sqr, Fp_rsub; cbn [ECP.x ECP.y ECP.z]; apply Fp_equals_eq.
  rewrite !Fp_imul_mul. change (3 * CURVE_B_I) with 6. change CURVE_B_I with 2.
  refine (Fp_eq_by_multiple2 _ _
    (Fp_add (Fp_mul (Fp_of_Z 18) (Fp_mul (Fp_pow X1 3) (Fp_mul (Fp_pow X2 3) (Fp_pow Y2 3))))
      (Fp_add (Fp_mul (Fp_of_Z (-432)) (Fp_mul (Fp_pow X1 3) (Fp_mul (Fp_pow X2 3) (Fp_mul Y2 (Fp_pow Z2 2)))))
      (Fp_add (Fp_mul (Fp_of_Z 36) (Fp_mul (Fp_pow X1 3) (Fp_mul (Fp_pow Y2 5) Z2)))
      (Fp_add (Fp_mul (Fp_of_Z (-612)) (Fp_mul (Fp_pow X1 3) (Fp_mul (Fp_pow Y2 3) (Fp_pow Z2 3))))
      (Fp_add (Fp_mul (Fp_of_Z 1080) (Fp_mul (Fp_pow X1 3) (Fp_mul Y2 (Fp_pow Z2 5))))
      (Fp_add (Fp_mul (Fp_of_Z 54) (Fp_mul (Fp_pow X1 2) (Fp_mul Y1 (Fp_mul (Fp_pow X2 4) (Fp_pow Y2 2)))))
      (Fp_add (Fp_mul (Fp_of_Z (-324)) (Fp_mul (Fp_pow X1 2) (Fp_mul Y1 (Fp_mul (Fp_pow X2 4) (Fp_pow Z2 2)))))
      (Fp_add (Fp_mul (Fp_of_Z 108) (Fp_mul (Fp_pow X1 2) (Fp_mul Y1 (Fp_mul X2 (Fp_mul (Fp_pow Y2 4) Z2)))))
      (Fp_add (Fp_mul (Fp_of_Z (-864)) (Fp_mul (Fp_pow X1 2) (Fp_mul Y1 (Fp_mul X2 (Fp_mul (Fp_pow Y2 2) (Fp_pow Z2 3))))))
      (Fp_add (Fp_mul (Fp_of_Z 1296) (Fp_mul (Fp_pow X1 2) (Fp_mul Y1 (Fp_mul X2 (Fp_pow Z2 5)))))
      (Fp_add (Fp_mul (Fp_of_Z (-1944)) (Fp_mul (Fp_pow X1 2) (Fp_mul Z1 (Fp_mul X2 (Fp_mul (Fp_pow Y2 3) (Fp_pow Z2 2))))))
      (Fp_add (Fp_mul (Fp_of_Z 3888) (Fp_mul (Fp_pow X1 2) (Fp_mul Z1 (Fp_mul X2 (Fp_mul Y2 (Fp_pow Z2 4))))))
      (Fp_add (Fp_mul (Fp_of_Z 108) (Fp_mul X1 (Fp_mul (Fp_pow Y1 2) (Fp_mul (Fp_pow X2 2) (Fp_mul (Fp_pow Y2 3) Z2)))))
      (Fp_add (Fp_mul (Fp_of_Z (-648)) (Fp_mul X1 (Fp_mul (Fp_pow Y1 2) (Fp_mul (Fp_pow X2 2) (Fp_mul Y2 (Fp_pow Z2 3))))))
      (Fp_add (Fp_mul (Fp_of_Z 54) (Fp_mul X1 (Fp_mul Y1 (Fp_mul Z1 (Fp_mul (Fp_pow X2 2) (Fp_pow Y2 4))))))
      (Fp_add (Fp_mul (Fp_of_Z (-1944)) (Fp_mul X1 (Fp_mul Y1 (Fp_mul Z1 (Fp_mul (Fp_pow X2 2) (Fp_mul (Fp_pow Y2 2) (Fp_pow Z2 2)))))))
      (Fp_add (Fp_mul (Fp_of_Z 1944) (Fp_mul X1 (Fp_mul Y1 (Fp_mul Z1 (Fp_mul (Fp_pow X2 2) (Fp_pow Z2 4))))))
      (Fp_add (Fp_mul (Fp_of_Z (-648)) (Fp_mul X1 (Fp_mul (Fp_pow Z1 2) (Fp_mul (Fp_pow X2 2) (Fp_mul (Fp_pow Y2 3) Z2)))))
      (Fp_add (Fp_mul (Fp_of_Z 3888) (Fp_mul X1 (Fp_mul (Fp_pow Z1 2) (Fp_mul (Fp_pow X2 2) (Fp_mul Y2 (Fp_pow Z2 3))))))
      (Fp_add (Fp_mul (Fp_of_Z 36) (Fp_mul (Fp_pow Y1 3) (Fp_mul (Fp_pow X2 3) (Fp_mul (Fp_pow Y2 2) Z2))))
      (Fp_add (Fp_mul (Fp_of_Z 1) (Fp_mul (Fp_pow Y1 3) (Fp_pow Y2 6)))
      (Fp_add (Fp_mul (Fp_of_Z (-36)) (Fp_mul (Fp_pow Y1 3) (Fp_mul (Fp_pow Y2 2) (Fp_pow Z2 4))))
      (Fp_add (Fp_mul (Fp_of_Z 18) (Fp_mul (Fp_pow Y1 2) (Fp_mul Z1 (Fp_mul (Fp_pow X2 3) (Fp_pow Y2 3)))))
      (Fp_add (Fp_mul (Fp_of_Z (-432)) (Fp_mul (Fp_pow Y1 2) (Fp_mul Z1 (Fp_mul (Fp_pow X2 3) (Fp_mul Y2 (Fp_pow Z2 2))))))
      (Fp_add (Fp_mul (Fp_of_Z (-180)) (Fp_mul (Fp_pow Y1 2) (Fp_mul Z1 (Fp_mul (Fp_pow Y2 3) (Fp_pow Z2 3)))))
      (Fp_add (Fp_mul (Fp_of_Z (-216)) (Fp_mul (Fp_pow Y1 2) (Fp_mul Z1 (Fp_mul Y2 (Fp_pow Z2 5)))))
      (Fp_add (Fp_mul (Fp_of_Z (-360)) (Fp_mul Y1 (Fp_mul (Fp_pow Z1 2) (Fp_mul (Fp_pow X2 3) (Fp_mul (Fp_pow Y2 2) Z2)))))
      (Fp_add (Fp_mul (Fp_of_Z 1728) (Fp_mul Y1 (Fp_mul (Fp_pow Z1 2) (Fp_mul (Fp_pow X2 3) (Fp_pow Z2 3)))))
      (Fp_add (Fp_mul (Fp_of_Z (-180)) (Fp_mul Y1 (Fp_mul (Fp_pow Z1 2) (Fp_mul (Fp_pow Y2 4) (Fp_pow Z2 2)))))
      (Fp_add (Fp_mul (Fp_of_Z (-1152)) (Fp_mul Y1 (Fp_mul (Fp_pow Z1 2) (Fp_mul (Fp_pow Y2 2) (Fp_pow Z2 4)))))
      (Fp_add (Fp_mul (Fp_of_Z (-432)) (Fp_mul Y1 (Fp_mul (Fp_pow Z1 2) (Fp_pow Z2 6))))
      (Fp_add (Fp_mul (Fp_of_Z (-72)) (Fp_mul (Fp_pow Z1 3) (Fp_mul (Fp_pow X2 3) (Fp_pow Y2 3))))
      (Fp_add (Fp_mul (Fp_of_Z 1728) (Fp_mul (Fp_pow Z1 3) (Fp_mul (Fp_pow X2 3) (Fp_mul Y2 (Fp_pow Z2 2)))))
      (Fp_add (Fp_mul (Fp_of_Z (-36)) (Fp_mul (Fp_pow Z1 3) (Fp_mul (Fp_pow Y2 5) Z2)))
      (Fp_add (Fp_mul (Fp_of_Z (-1440)) (Fp_mul (Fp_pow Z1 3) (Fp_mul (Fp_pow Y2 3) (Fp_pow Z2 3))))
      (Fp_mul (Fp_of_Z (-432)) (Fp_mul (Fp_pow Z1 3) (Fp_mul Y2 (Fp_pow Z2 5)))))))))))))))))))))))))))))))))))))))
    _
    (Fp_add (Fp_mul (Fp_of_Z 36) (Fp_mul (Fp_pow X1 6) (Fp_pow Y2 3)))
      (Fp_add (Fp_mul (Fp_of_Z (-540)) (Fp_mul (Fp_pow X1 6) (Fp_mul Y2 (Fp_pow Z2 2))))
      (Fp_add (Fp_mul (Fp_of_Z 108) (Fp_mul (Fp_pow X1 5) (Fp_mul Y1 (Fp_mul X2 (Fp_pow Y2 2)))))
      (Fp_add (Fp_mul (Fp_of_Z (-648)) (Fp_mul (Fp_pow X1 5) (Fp_mul Y1 (Fp_mul X2 (Fp_pow Z2 2)))))
      (Fp_add (Fp_mul (Fp_of_Z (-1944)) (Fp_mul (Fp_pow X1 5) (Fp_mul Z1 (Fp_mul X2 (Fp_mul Y2 Z2)))))
      (Fp_add (Fp_mul (Fp_of_Z 162) (Fp_mul (Fp_pow X1 4) (Fp_mul (Fp_pow Y1 2) (Fp_mul (Fp_pow X2 2) Y2))))
      (Fp_add (Fp_mul (Fp_of_Z (-1944)) (Fp_mul (Fp_pow X1 4) (Fp_mul Y1 (Fp_mul Z1 (Fp_mul (Fp_pow X2 2) Z2)))))
      (Fp_add (Fp_mul (Fp_of_Z (-972)) (Fp_mul (Fp_pow X1 4) (Fp_mul (Fp_pow Z1 2) (Fp_mul (Fp_pow X2 2) Y2))))
      (Fp_add (Fp_mul (Fp_of_Z 54) (Fp_mul (Fp_pow X1 3) (Fp_mul (Fp_pow Y1 3) (Fp_pow X2 3))))
      (Fp_add (Fp_mul (Fp_of_Z 18) (Fp_mul (Fp_pow X1 3) (Fp_mul (Fp_pow Y1 3) (Fp_mul (Fp_pow Y2 2) Z2))))
      (Fp_add (Fp_mul (Fp_of_Z (-108)) (Fp_mul (Fp_pow X1 3) (Fp_mul (Fp_pow Y1 3) (Fp_pow Z2 3))))
      (Fp_add (Fp_mul (Fp_of_Z (-972)) (Fp_mul (Fp_pow X1 3) (Fp_mul Y1 (Fp_mul (Fp_pow Z1 2) (Fp_pow X2 3)))))
      (Fp_add (Fp_mul (Fp_of_Z (-612)) (Fp_mul (Fp_pow X1 3) (Fp_mul Y1 (Fp_mul (Fp_pow Z1 2) (Fp_mul (Fp_pow Y2 2) Z2)))))
      (Fp_add (Fp_mul (Fp_of_Z 216) (Fp_mul (Fp_pow X1 3) (Fp_mul Y1 (Fp_mul (Fp_pow Z1 2) (Fp_pow Z2 3)))))
      (Fp_add (Fp_mul (Fp_of_Z 36) (Fp_mul (Fp_pow X1 3) (Fp_mul (Fp_pow Z1 3) (Fp_pow Y2 3))))
      (Fp_add (Fp_mul (Fp_of_Z (-864)) (Fp_mul (Fp_pow X1 3) (Fp_mul (Fp_pow Z1 3) (Fp_mul Y2 (Fp_pow Z2 2)))))
      (Fp_add (Fp_mul (Fp_of_Z 54) (Fp_mul (Fp_pow X1 2) (Fp_mul (Fp_pow Y1 4) (Fp_mul X2 (Fp_mul Y2 Z2)))))
      (Fp_add (Fp_mul (Fp_of_Z (-432)) (Fp_mul (Fp_pow X1 2) (Fp_mul Y1 (Fp_mul (Fp_pow Z1 3) (Fp_mul X2 (Fp_pow Y2 2))))))
      (Fp_add (Fp_mul (Fp_of_Z 2592) (Fp_mul (Fp_pow X1 2) (Fp_mul Y1 (Fp_mul (Fp_pow Z1 3) (Fp_mul X2 (Fp_pow Z2 2))))))
      (Fp_add (Fp_mul (Fp_of_Z (-1944)) (Fp_mul (Fp_pow X1 2) (Fp_mul (Fp_pow Z1 4) (Fp_mul X2 (Fp_mul Y2 Z2)))))
      (Fp_add (Fp_mul (Fp_of_Z 1) (Fp_mul (Fp_pow Y1 6) (Fp_pow Y2 3)))
      (Fp_add (Fp_mul (Fp_of_Z (-576)) (Fp_mul Y1 (Fp_mul (Fp_pow Z1 5) (Fp_mul (Fp_pow Y2 2) Z2))))
      (Fp_add (Fp_mul (Fp_of_Z (-3456)) (Fp_mul Y1 (Fp_mul (Fp_pow Z1 5) (Fp_pow Z2 3))))
      (Fp_add (Fp_mul (Fp_of_Z (-72)) (Fp_mul (Fp_pow Z1 6) (Fp_pow Y2 3)))
      (Fp_mul (Fp_of_Z (-3456)) (Fp_mul (Fp_pow Z1 6) (Fp_mul Y2 (Fp_pow Z2 2))))))))))))))))))))))))))))
    _ _ H1 H2).
  cbn [Fp_pow]. ring.
Qed.

Lemma ecp_add_on_curve_witness :
  let G := ECP.mk (Fp_of_Z (big_value CURVE_Gx)) (Fp_of_Z (big_value CURVE_Gy)) (Fp_of_Z 1) in
  ECP.on_curve G = true /\ ECP.on_curve (ECP.add G G) = true.
Proof.
  intros G.
  assert (H : ECP.on_curve G = true) by (vm_compute; reflexivity).
  exact (conj H (ecp_add_on_curve G G H H)).
Defined.

(** [add(Q)] is symmetric in its two operands. *)
Theorem ecp_add_comm (P Q : ECP.t) : ECP.add P Q = ECP.add Q P.
Proof.
  destruct P as [X1 Y1 Z1], Q as [X2 Y2 Z2].
  unfold ECP.add, Fp_rsub; cbn [ECP.x ECP.y ECP.z]. rewrite !Fp_imul_mul.
  f_equal; ring.
Qed.

(** Adding the point at infinity [new()] scales the coordinates by [y],
    which [equals] identifies with the point itself. *)
Theorem ecp_add_new (P : ECP.t) :
  ECP.add P ECP.new =
    ECP.mk (Fp_mul (ECP.x P) (ECP.y P)) (Fp_mul (ECP.y P) (ECP.y P)) (Fp_mul (ECP.y P) (ECP.z P)) /\
  ECP.equals (ECP.add P ECP.new) P = true.
Proof.
  destruct P as [X1 Y1 Z1].
  assert (E : ECP.add (ECP.mk X1 Y1 Z1) ECP.new =
    ECP.mk (Fp_mul X1 Y1) (Fp_mul Y1 Y1) (Fp_mul Y1 Z1)).
  { unfold ECP.add, ECP.new, Fp_rsub; cbn [ECP.x ECP.y ECP.z]. rewrite !Fp_imul_mul.
    f_equal; ring. }
  cbn [ECP.x ECP.y ECP.z]. split; [exact E |]. rewrite E.
  unfold ECP.equals; cbn [ECP.x ECP.y ECP.z].
  apply andb_true_intro; split; apply Fp_equals_eq; ring.
Qed.

(** [setxy(ix, iy)] always yields a point of the curve: the affine point
    when [iy^2 = RHS(ix)], and otherwise the point at infinity. *)
Theorem ecp_setxy_on_curve (ix iy : BIG) : ECP.on_curve (ECP.setxy ix iy) = true.
Proof.
  unfold ECP.setxy.
  destruct (Fp_equals (Fp_sqr (Fp_of_Z (big_value iy))) (ECP.RHS (Fp_of_Z (big_value ix)))) eqn:E.
  - apply Fp_equals_eq in E. unfold ECP.on_curve; cbn [ECP.x ECP.y ECP.z]; apply Fp_equals_eq.
    rewrite E. unfold ECP.RHS, Fp_sqr. rewrite Fp_imul_mul. ring.
  - unfold ECP.on_curve, ECP.new; cbn [ECP.x ECP.y ECP.z]; apply Fp_equals_eq.
    unfold Fp_sqr. rewrite Fp_imul_mul. ring.
Qed.

(** ** The quadratic extension FP2 *)

(** [neg()] computes [m = -(a + b)] and returns [(m + b, m + a)], the
    additive inverse; [sqr()] is [mul] by itself; [mul] is the product
    of [Fp[i]/(i^2 + 1)]. *)
Theorem fp2_neg_sqr_mul (w v : FP2.t) :
  FP2.neg w = FP2.mk (Fp_opp (FP2.a w)) (Fp_opp (FP2.b w)) /\
  FP2.sqr w = FP2.mul w w /\
  FP2.mul w v =
    FP2.mk (Fp_sub (Fp_mul (FP2.a w) (FP2.a v)) (Fp_mul (FP2.b w) (FP2.b v)))
      (Fp_add (Fp_mul (FP2.a w) (FP2.b v)) (Fp_mul (FP2.b w) (FP2.a v))).
Proof.
  destruct w as [a b], v as [c d]. unfold FP2.neg, FP2.sqr, FP2.mul; cbn [FP2.a FP2.b].
  split; [| split]; f_equal; ring.
Qed.

(** [times_i()] multiplies by [i], [mul_ip()] by [1 + i], and [i^2 = -1]. *)
Theorem fp2_times_i_mul_ip (w : FP2.t) :
  FP2.times_i w = FP2.mul w FP2_i /\
  FP2.mul_ip w = FP2.mul w (FP2.add FP2.one FP2_i) /\
  FP2.mul FP2_i FP2_i = FP2.neg FP2.one.
Proof.
  split; [apply FP2_times_i_eq | split; [apply FP2_mul_ip_eq |]].
  apply FP2_ext; unfold FP2.mul, FP2.neg, FP2_i, FP2.one, FP2.of_Z; cbn [FP2.a FP2.b]; ring.
Qed.

Lemma Fp_two_half : Fp_mul (Fp_of_Z 2) (Fp_of_Z ((p + 1) / 2)) = Fp_one.
Proof. apply Fp_ext. vm_compute. reflexivity. Qed.

(** [div_ip()] undoes [mul_ip()]: it divides by [1 + i]. *)
Theorem fp2_div_ip_mul_ip (w : FP2.t) : FP2.div_ip (FP2.mul_ip w) = w.
Proof.
  destruct w as [a b].
  unfold FP2.div_ip, FP2.mul_ip, FP2.Fp_div2, FP2.add; cbn [FP2.a FP2.b].
  apply FP2_ext; cbn [FP2.a FP2.b].
  - transitivity (Fp_mul a (Fp_mul (Fp_of_Z 2) (Fp_of_Z ((p + 1) / 2)))); [ring |].
    rewrite Fp_two_half. ring.
  - transitivity (Fp_mul b (Fp_mul (Fp_of_Z 2) (Fp_of_Z ((p + 1) / 2)))); [ring |].
    rewrite Fp_two_half. ring.
Qed.

(** ** The quartic extension FP4 *)

(** [neg()] is the additive inverse, [sqr()] is [mul] by itself, [mul] is
    the product of [FP2[s]/(s^2 - (1 + i))], and [times_i()] multiplies
    by [s]. *)
Theorem fp4_neg_sqr_mul (x y : FP4.t) :
  FP4.neg x = FP4.mk (FP2.neg (FP4.a x)) (FP2.neg (FP4.b x)) /\
  FP4.sqr x = FP4.mul x x /\
  FP4.mul x y =
    FP4.mk (FP2.add (FP2.mul (FP4.a x) (FP4.a y))
              (FP2.mul (FP2.add FP2.one FP2_i) (FP2.mul (FP4.b x) (FP4.b y))))
      (FP2.add (FP2.mul (FP4.a x) (FP4.b y)) (FP2.mul (FP4.b x) (FP4.a y))) /\
  FP4.times_i x = FP4.mul x FP4_s.
Proof.
  destruct x as [a b], y as [c d].
  split; [| split; [| split]].
  - unfold FP4.neg; cbn [FP4.a FP4.b]. f_equal; ring.
  - apply FP4_sqr_eq.
  - unfold FP4.mul; cbn [FP4.a FP4.b]. unfold FP2.sub. rewrite !FP2_mul_ip_eq. f_equal; ring.
  - apply FP4_times_i_eq.
Qed.

(** [conj()] is an automorphism of FP4 of order two. *)
Theorem fp4_conj_automorphism (x y : FP4.t) :
  FP4.conj (FP4.add x y) = FP4.add (FP4.conj x) (FP4.conj y) /\
  FP4.conj (FP4.mul x y) = FP4.mul (FP4.conj x) (FP4.conj y) /\
  FP4.conj (FP4.conj x) = x.
Proof.
  split; [apply FP4_conj_add | split; [apply FP4_conj_mul | apply FP4_conj_conj]].
Qed.

(** ** The degree-12 extension FP12 *)

(** [mul] is commutative and associative with [one] as unit. *)
Theorem fp12_mul_comm_monoid (x y z : FP12.t) :
  FP12.mul x y = FP12.mul y x /\
  FP12.mul x (FP12.mul y z) = FP12.mul (FP12.mul x y) z /\
  FP12.mul x FP12.one = x.
Proof.
  split; [apply FP12_mul_comm | split; [apply FP12_mul_assoc | apply FP12_mul_one]].
Qed.

(** [conj()] is multiplicative, fixes [one], and is its own inverse. *)
Theorem fp12_conj_automorphism (x y : FP12.t) :
  FP12.conj (FP12.mul x y) = FP12.mul (FP12.conj x) (FP12.conj y) /\
  FP12.conj FP12.one = FP12.one /\
  FP12.conj (FP12.conj x) = x.
Proof.
  split; [apply FP12_conj_mul | split; [apply FP12_conj_one | apply FP12_conj_conj]].
Qed.

(** [inverse()]: the [f0, f1, f2] it computes form the adjugate of [x],
    whose product with [x] is the FP4 element [f3] of the code; scaling by
    the inverse of [f3] then gives the inverse of [x]. *)
Theorem fp12_inverse_adjugate (x : FP12.t) :
  FP12.mul x (FP12.inverse_adj x) = FP12.mk (FP12.inverse_f3 x) (FP4.of_Z 0) (FP4.of_Z 0).
Proof.
  destruct x as [a b c]. unfold FP12.inverse_f3. FP12_comp.
Qed.

(** [usqr()] squares every element whose conjugate is its adjugate, as
    every element of the cyclotomic subgroup does. *)
Theorem fp12_usqr_cyclotomic (x : FP12.t) :
  FP12.equals (FP12.conj x) (FP12.inverse_adj x) = true -> FP12.usqr x = FP12.mul x x.
Proof. intros H. apply FP12_usqr_eq, FP12_equals_eq, H. Qed.

Lemma fp12_usqr_cyclotomic_witness :
  FP12.usqr cyclotomic_sample = FP12.mul cyclotomic_sample cyclotomic_sample.
Proof. apply fp12_usqr_cyclotomic. vm_compute. reflexivity. Defined.

(** ** BIG arithmetic *)

(** [bit(j)] of a normalised BIG is bit [j] of the integer it stands for. *)
Theorem big_bit_spec (w : BIG) (j : Z) :
  limbs24 w -> 0 <= j -> bit w j = Z.b2z (Z.testbit (big_value w) j).
Proof.
  intros Hw Hj. rewrite bit_value by assumption.
  pose proof (big_value_bounds _ Hw). rewrite Z.testbit_spec' by lia. reflexivity.
Qed.

Lemma big_bit_spec_witness :
  bit CURVE_Order 7 = Z.b2z (Z.testbit (big_value CURVE_Order) 7).
Proof. apply big_bit_spec; [apply Forall_range_forallb; reflexivity | lia]. Defined.

(** [nbits()] of a normalised non-zero BIG is the bit length of its value. *)
Theorem big_nbits_spec (w : BIG) :
  length w = Z.to_nat NLEN -> limbs24 w -> 0 < big_value w ->
  nbits w = Some (Z.log2 (big_value w) + 1).
Proof. apply nbits_log2. Qed.

Lemma big_nbits_spec_witness : nbits Modulus = Some (Z.log2 (big_value Modulus) + 1).
Proof.
  apply big_nbits_spec; [reflexivity | apply Forall_range_forallb; reflexivity | vm_compute; reflexivity].
Defined.



Lemma norm_aux_0_limbs24 (w : BIG) : limbs24 w -> norm_aux 0 w = w.
Proof.
  induction 1 as [| x w Hx Hw IH]; [reflexivity |].
  destruct w as [| y w].
  - cbn. rewrite Z.add_0_r. reflexivity.
  - change (norm_aux 0 (x :: y :: w))
      with (js_and (x + 0) BMASK :: norm_aux (js_shr (x + 0) BASEBITS) (y :: w)).
    rewrite js_and_BMASK, js_shr_div by (unfold BASEBITS; lia).
    rewrite Z.add_0_r, Z.mod_small, Z.div_small by (unfold BASEBITS; lia).
    rewrite IH. reflexivity.
Qed.

(** [norm()] leaves a normalised BIG unchanged. *)
Theorem big_norm_normalised (w : BIG) : limbs24 w -> norm w = w.
Proof. apply norm_aux_0_limbs24. Qed.

Lemma big_norm_normalised_witness : norm Modulus = Modulus.
Proof. apply big_norm_normalised, Forall_range_forallb. reflexivity. Defined.

Lemma comp_rev_sgn (ra rb : list Z) :
  length ra = length rb -> limbs24 ra -> limbs24 rb ->
  comp_rev ra rb = Z.sgn (big_value (rev ra) - big_value (rev rb)).
Proof.
  revert rb; induction ra as [| x ra IH]; intros [| y rb] Hl Ha Hb; try discriminate; [reflexivity |].
  inversion Ha as [| ? ? Hx Ha']; inversion Hb as [| ? ? Hy Hb']; subst.
  cbn [rev comp_rev]. rewrite !big_value_app, !length_rev. cbn [big_value length] in *.
  injection Hl as Hl. rewrite Hl.
  pose proof (big_value_bounds _ (Forall_rev Ha')) as Ba.
  pose proof (big_value_bounds _ (Forall_rev Hb')) as Bb.
  rewrite !length_rev in Ba, Bb. rewrite Hl in Ba.
  set (K := 2 ^ (BASEBITS * Z.of_nat (length rb))) in *.
  destruct (Z.eqb_spec x y) as [-> | Hne].
  - rewrite (IH rb Hl Ha' Hb'). f_equal. ring.
  - destruct (Z.gtb_spec x y).
    + symmetry. apply Z.sgn_pos. nia.
    + symmetry. apply Z.sgn_neg. nia.
Qed.

(** [BIG.comp(a, b)] of normalised BIGs of the same length is the sign of
    the difference of their values. *)
Theorem big_comp_spec (a b : BIG) :
  length a = length b -> limbs24 a -> limbs24 b ->
  comp a b = Z.sgn (big_value a - big_value b).
Proof.
  intros Hl Ha Hb. unfold comp.
  rewrite comp_rev_sgn, !rev_involutive.
  - reflexivity.
  - rewrite !length_rev. exact Hl.
  - exact (Forall_rev Ha).
  - exact (Forall_rev Hb).
Qed.

Lemma big_comp_spec_witness :
  comp CURVE_Order Modulus = Z.sgn (big_value CURVE_Order - big_value Modulus).
Proof.
  apply big_comp_spec; [reflexivity | |]; apply Forall_range_forallb; reflexivity.
Defined.

(** [cmove(b, d)] keeps the BIG for [d = 0] and copies [b] for [d = 1]. *)
Theorem big_cmove_spec (w b : BIG) :
  length w = length b -> Forall int32_range w -> Forall int32_range b ->
  cmove w b 0 = w /\ cmove w b 1 = b.
Proof. intros Hl Hw Hb. split; [apply cmove_0 | apply cmove_1]; assumption. Qed.

Lemma big_cmove_spec_witness :
  cmove CURVE_Gx CURVE_Gy 0 = CURVE_Gx /\ cmove CURVE_Gx CURVE_Gy 1 = CURVE_Gy.
Proof.
  apply big_cmove_spec; [reflexivity | |]; apply limbs24_int32, Forall_range_forallb; reflexivity.
Defined.

(** ** Byte conversions *)

Lemma lor_low (a q k : Z) :
  0 <= k -> 0 <= q < 2 ^ k -> Z.lor (a * 2 ^ k) q = a * 2 ^ k + q.
Proof.
  intros Hk Hq.
  assert (Hland : Z.land (a * 2 ^ k) q = 0).
  { apply Z.bits_inj'. intros m Hm. rewrite Z.land_spec, Z.bits_0.
    destruct (Z.lt_ge_cases m k).
    - rewrite <- Z.shiftl_mul_pow2, Z.shiftl_spec_low by lia. reflexivity.
    - destruct (Z.eq_dec q 0) as [-> | Hq0]; [rewrite Z.bits_0; apply andb_false_r |].
      assert (Z.log2 q < k) by (apply Z.log2_lt_pow2; lia).
      rewrite (Z.bits_above_log2 q m) by lia.
      apply andb_false_r. }
  rewrite <- Z.lxor_lor by exact Hland.
  symmetry. apply Z.add_nocarry_lxor. exact Hland.
Qed.

Lemma js_and_0xff (d : Z) : js_and d 0xff = d mod 2 ^ 8.
Proof.
  unfold js_and. rewrite (ToInt32_id 0xff) by lia.
  replace 0xff with (Z.ones 8) by reflexivity.
  rewrite Z.land_ones by lia.
  apply (mod_pow2_of_mod_2_32 8); [lia | apply ToInt32_mod].
Qed.

Lemma js_shl_8 (x : Z) : 0 <= x < 2 ^ 24 -> js_shl x 8 mod 2 ^ 24 = (x * 2 ^ 8) mod 2 ^ 24.
Proof.
  intros Hx. unfold js_shl. rewrite (ToInt32_id x) by lia.
  apply (mod_pow2_of_mod_2_32 24); [lia |].
  rewrite ToInt32_mod. change (8 mod 32) with 8. rewrite Z.shiftl_mul_pow2 by lia. reflexivity.
Qed.

Lemma js_or_small (a b : Z) :
  0 <= a < 2 ^ 31 -> 0 <= b < 2 ^ 31 -> js_or a b = Z.lor a b.
Proof. intros. unfold js_or. rewrite !ToInt32_id by lia. reflexivity. Qed.

(** [fshl(8)] below the top limb: the limb's low 16 bits move up by a byte
    and the limb below gives its top byte. *)
Lemma fshl_aux_8 (w : BIG) (prev : Z) :
  w <> [] -> limbs24 w -> 0 <= last w 0 < 2 ^ 16 -> 0 <= prev < 2 ^ 24 ->
  length (fshl_aux 8 prev w) = length w /\ limbs24 (fshl_aux 8 prev w) /\
  big_value (fshl_aux 8 prev w) = 2 ^ 8 * big_value w + prev / 2 ^ 16.
Proof.
  revert prev; induction w as [| x w IH]; intros prev Hne Hw Htop Hp; [congruence |].
  inversion Hw as [| ? ? Hx Hw']; subst.
  assert (Hq : 0 <= prev / 2 ^ 16 < 2 ^ 8).
  { split; [apply Z.div_pos; lia | apply Z.div_lt_upper_bound; lia]. }
  assert (Hs : js_shr prev (BASEBITS - 8) = prev / 2 ^ 16)
    by (rewrite js_shr_div by (unfold BASEBITS; lia); reflexivity).
  destruct w as [| y w].
  - cbn [last] in Htop. cbn [fshl_aux length big_value]. rewrite Hs.
    assert (Hx8 : js_shl x 8 = x * 2 ^ 8).
    { unfold js_shl. rewrite (ToInt32_id x) by lia. change (8 mod 32) with 8.
      rewrite Z.shiftl_mul_pow2, ToInt32_id by lia. reflexivity. }
    rewrite Hx8, js_or_small, lor_low by lia.
    split; [reflexivity |]. split; [constructor; [lia | constructor] |]. ring.
  - change (fshl_aux 8 prev (x :: y :: w))
      with (js_or (js_and (js_shl x 8) BMASK) (js_shr prev (BASEBITS - 8)) :: fshl_aux 8 x (y :: w)).
    rewrite js_and_BMASK, js_shl_8, Hs by lia.
    assert (Hm : (x * 2 ^ 8) mod 2 ^ 24 = (x mod 2 ^ 16) * 2 ^ 8).
    { replace (2 ^ 24) with (2 ^ 16 * 2 ^ 8) by reflexivity.
      rewrite Z.mul_mod_distr_r by lia. reflexivity. }
    pose proof (Z.mod_pos_bound x (2 ^ 16) ltac:(lia)).
    rewrite Hm, js_or_small, lor_low by lia.
    destruct (IH x ltac:(congruence) Hw' Htop Hx) as (Hl & Hf & Hv).
    cbn [length big_value] in *. rewrite Hv.
    repeat split; [lia | constructor; [lia | exact Hf] |].
    pose proof (Z.div_mod x (2 ^ 16) ltac:(lia)). unfold BASEBITS. lia.
Qed.

Lemma fshl_8 (w : BIG) :
  (length w >= 2)%nat -> limbs24 w -> 0 <= last w 0 < 2 ^ 16 ->
  length (fshl w 8) = length w /\ limbs24 (fshl w 8) /\
  big_value (fshl w 8) = 2 ^ 8 * big_value w /\ nth 0 (fshl w 8) 0 mod 2 ^ 8 = 0.
Proof.
  intros Hlen Hw Htop.
  destruct w as [| x [| y w]]; cbn [length] in Hlen; try lia.
  inversion Hw as [| ? ? Hx Hw']; subst.
  cbn [fshl]. rewrite js_and_BMASK, js_shl_8 by lia.
  assert (Hm : (x * 2 ^ 8) mod 2 ^ 24 = (x mod 2 ^ 16) * 2 ^ 8).
  { replace (2 ^ 24) with (2 ^ 16 * 2 ^ 8) by reflexivity.
    rewrite Z.mul_mod_distr_r by lia. reflexivity. }
  pose proof (Z.mod_pos_bound x (2 ^ 16) ltac:(lia)).
  rewrite Hm.
  destruct (fshl_aux_8 (y :: w) x ltac:(congruence) Hw' Htop Hx) as (Hl & Hf & Hv).
  cbn [length big_value nth] in *. rewrite Hv.
  repeat split; [lia | constructor; [lia | exact Hf] | |].
  - pose proof (Z.div_mod x (2 ^ 16) ltac:(lia)). unfold BASEBITS. lia.
  - apply Z.mod_mul. lia.
Qed.

Lemma limbs24_top (w : BIG) (k : Z) :
  w <> [] -> limbs24 w -> 0 <= k -> big_value w < 2 ^ (BASEBITS * Z.of_nat (length w - 1) + k) ->
  0 <= last w 0 < 2 ^ k.
Proof.
  intros Hne Hw Hk Hv.
  assert (Hf : limbs24 (removelast w)).
  { rewrite (app_removelast_last 0 Hne) in Hw. apply limbs24_app in Hw. apply Hw. }
  rewrite (norm_last_limb w Hne Hf).
  pose proof (big_value_bounds _ Hw).
  assert (0 < 2 ^ (BASEBITS * Z.of_nat (length w - 1))) by (apply Z.pow_pos_nonneg; unfold BASEBITS; lia).
  rewrite Z.pow_add_r in Hv by (unfold BASEBITS; lia).
  split; [apply Z.div_pos; lia | apply Z.div_lt_upper_bound; lia].
Qed.

(** [frombytearray]: each round shifts the BIG up a byte and adds the next
    byte to the lowest limb. *)
Lemma frombytes_aux_spec (bs : list Z) (m : BIG) :
  length m = Z.to_nat NLEN -> limbs24 m ->
  0 <= big_value m < 2 ^ (BASEBITS * NLEN - 8 * Z.of_nat (length bs)) ->
  length (frombytes_aux bs m) = Z.to_nat NLEN /\ limbs24 (frombytes_aux bs m) /\
  big_value (frombytes_aux bs m) = fold_left (fun acc c => acc * 256 + c mod 256) bs (big_value m).
Proof.
  revert m; induction bs as [| b bs IH]; intros m Hl Hm Hv; [repeat split; assumption |].
  cbn [frombytes_aux fold_left length] in *.
  change (BASEBITS * NLEN) with 264 in Hv.
  assert (Hne : m <> []) by (intro E; rewrite E in Hl; discriminate Hl).
  assert (Htop : 0 <= last m 0 < 2 ^ 16).
  { apply limbs24_top; [exact Hne | exact Hm | lia |]. rewrite Hl.
    change (BASEBITS * Z.of_nat (Z.to_nat NLEN - 1) + 16) with 256.
    assert (2 ^ (264 - 8 * Z.of_nat (S (length bs))) <= 2 ^ 256) by (apply Z.pow_le_mono_r; lia). lia. }
  destruct (fshl_8 m ltac:(rewrite Hl; cbn; lia) Hm Htop) as (Hl' & Hf & Hv' & Hlow).
  destruct (fshl m 8) as [| x r] eqn:Ef; [cbn in Hl'; rewrite Hl in Hl'; discriminate Hl' |].
  cbn [set_low nth] in *. rewrite js_and_0xff.
  inversion Hf as [| ? ? Hx Hr]; subst.
  pose proof (Z.mod_pos_bound b (2 ^ 8) ltac:(lia)).
  assert (Hx' : 0 <= x + b mod 2 ^ 8 < 2 ^ 24).
  { pose proof (Z.div_mod x (2 ^ 8) ltac:(lia)).
    assert (x / 2 ^ 8 < 2 ^ 16) by (apply Z.div_lt_upper_bound; lia). lia. }
  assert (Hval : big_value (x + b mod 2 ^ 8 :: r) = big_value m * 256 + b mod 256).
  { cbn [big_value] in *. change (2 ^ 8) with 256 in *. lia. }
  destruct (IH (x + b mod 2 ^ 8 :: r)) as (H1 & H2 & H3).
  - cbn [length] in *. congruence.
  - constructor; assumption.
  - rewrite Hval. change (BASEBITS * NLEN) with 264.
    rewrite Nat2Z.inj_succ in Hv.
    replace (264 - 8 * Z.succ (Z.of_nat (length bs))) with (264 - 8 * Z.of_nat (length bs) - 8) in Hv by lia.
    assert (0 <= 264 - 8 * Z.of_nat (length bs) - 8).
    { destruct (Z_lt_le_dec (264 - 8 * Z.of_nat (length bs) - 8) 0) as [Hn | ]; [| lia].
      rewrite Z.pow_neg_r in Hv by exact Hn. lia. }
    rewrite (Z.pow_sub_r 2 (264 - 8 * Z.of_nat (length bs)) 8) in Hv by lia.
    pose proof (Z.mod_pos_bound b 256 ltac:(lia)).
    change (2 ^ 8) with 256 in Hv.
    assert (Hpow : 2 ^ (264 - 8 * Z.of_nat (length bs)) = 256 * (2 ^ (264 - 8 * Z.of_nat (length bs)) / 256)).
    { rewrite <- (Z.pow_sub_r 2 _ 8) by lia.
      replace (2 ^ (264 - 8 * Z.of_nat (length bs))) with (2 ^ 8 * 2 ^ (264 - 8 * Z.of_nat (length bs) - 8))
        by (rewrite <- Z.pow_add_r by lia; f_equal; lia). reflexivity. }
    nia.
  - repeat split; [exact H1 | exact H2 | rewrite H3, Hval; reflexivity].
Qed.

Lemma js_shl_mod24 (x k : Z) :
  - 2 ^ 31 <= x < 2 ^ 31 -> 0 <= k < 32 -> js_shl x k mod 2 ^ 24 = (x * 2 ^ k) mod 2 ^ 24.
Proof.
  intros Hx Hk. unfold js_shl. rewrite (ToInt32_id x) by lia.
  apply (mod_pow2_of_mod_2_32 24); [lia |].
  rewrite ToInt32_mod, (Z.mod_small k 32), Z.shiftl_mul_pow2 by lia. reflexivity.
Qed.

(** [fshr(8)]: every limb takes the top 16 bits of its own and the low byte
    of the limb above. *)
Lemma fshr_aux_8 (w : BIG) :
  limbs24 w ->
  length (fshr_aux 8 w) = length w /\ limbs24 (fshr_aux 8 w) /\
  big_value (fshr_aux 8 w) = big_value w / 2 ^ 8.
Proof.
  induction 1 as [| x w Hx Hw IH]; [repeat split; constructor |].
  destruct w as [| y w].
  - cbn [fshr_aux length big_value]. rewrite js_shr_div by lia.
    assert (0 <= x / 2 ^ 8 < 2 ^ 16) by (split; [apply Z.div_pos | apply Z.div_lt_upper_bound]; lia).
    split; [reflexivity |]. split; [constructor; [lia | constructor] |].
    rewrite !Z.mul_0_r, !Z.add_0_r. reflexivity.
  - inversion Hw as [| ? ? Hy Hw']; subst.
    change (fshr_aux 8 (x :: y :: w))
      with (js_or (js_shr x 8) (js_and (js_shl y (BASEBITS - 8)) BMASK) :: fshr_aux 8 (y :: w)).
    rewrite js_shr_div, js_and_BMASK, js_shl_mod24 by (unfold BASEBITS; lia).
    change (BASEBITS - 8) with 16.
    assert (Hm : (y * 2 ^ 16) mod 2 ^ 24 = (y mod 2 ^ 8) * 2 ^ 16).
    { replace (2 ^ 24) with (2 ^ 8 * 2 ^ 16) by reflexivity.
      rewrite Z.mul_mod_distr_r by lia. reflexivity. }
    pose proof (Z.mod_pos_bound y (2 ^ 8) ltac:(lia)).
    assert (0 <= x / 2 ^ 8 < 2 ^ 16) by (split; [apply Z.div_pos | apply Z.div_lt_upper_bound]; lia).
    rewrite Hm, js_or_small, Z.lor_comm, lor_low by lia.
    destruct IH as (Hl & Hf & Hv). cbn [length big_value] in *. rewrite Hv.
    split; [lia |]. split; [constructor; [lia | exact Hf] |].
    set (V := big_value w) in *. unfold BASEBITS.
    replace (x + 2 ^ 24 * (y + 2 ^ 24 * V)) with (x + (2 ^ 16 * (y + 2 ^ 24 * V)) * 2 ^ 8) by ring.
    rewrite Z.div_add by lia.
    replace (y + 2 ^ 24 * V) with (y + (2 ^ 16 * V) * 2 ^ 8) by ring.
    rewrite Z.div_add by lia.
    pose proof (Z.div_mod y (2 ^ 8) ltac:(lia)). lia.
Qed.

Lemma be_value_snoc (T : list Z) (t : Z) : be_value (T ++ [t]) = be_value T * 256 + t mod 256.
Proof. unfold be_value. rewrite fold_left_app. reflexivity. Qed.

(** [tobytearray]: the bytes are the low [n] bytes of the value, most
    significant first. *)
Lemma tobytes_aux_spec (n : nat) (c : BIG) (acc : list Z) :
  limbs24 c ->
  exists T, tobytes_aux n c acc = T ++ acc /\ length T = n /\
    Forall (fun t => 0 <= t < 256) T /\ be_value T = big_value c mod 2 ^ (8 * Z.of_nat n).
Proof.
  revert c acc; induction n as [| n IH]; intros c acc Hc.
  - exists []. repeat split; [constructor |]. cbn. rewrite Z.mod_1_r. reflexivity.
  - cbn [tobytes_aux fst fshr].
    destruct (fshr_aux_8 c Hc) as (_ & Hf & Hv).
    set (t := js_and (limb c 0) 0xff).
    destruct (IH (fshr_aux 8 c) (t :: acc) Hf) as (T & HT & Hl & Hb & Hbv).
    exists (T ++ [t]). rewrite HT, <- app_assoc. split; [reflexivity |].
    assert (Ht : t = big_value c mod 2 ^ 8).
    { unfold t. rewrite js_and_0xff, limb_value by (assumption || lia).
      rewrite Z.mul_0_r, Z.pow_0_r, Z.div_1_r.
      apply Z.mod_mod_divide. exists (2 ^ 16). reflexivity. }
    pose proof (big_value_bounds _ Hc).
    split; [rewrite length_app, Hl; cbn; lia |]. split.
    + apply Forall_app. split; [exact Hb | constructor; [| constructor]].
      rewrite Ht. apply Z.mod_pos_bound. lia.
    + rewrite be_value_snoc, Hbv, Hv, Ht. change (2 ^ 8) with 256.
      rewrite Z.mod_mod by lia.
      replace (8 * Z.of_nat (S n)) with (8 + 8 * Z.of_nat n) by lia.
      rewrite Z.pow_add_r by lia. change (2 ^ 8) with 256.
      rewrite Z.rem_mul_r by (try lia; apply Z.pow_pos_nonneg; lia). ring.
Qed.

Lemma map_nth_seq_id (l : list Z) : map (fun i => nth i l 0) (seq 0 (length l)) = l.
Proof.
  induction l as [| x l IH]; [reflexivity |].
  cbn [length seq map nth]. f_equal.
  rewrite <- seq_shift, map_map. exact IH.
Qed.

Lemma limbs24_unique (a b : BIG) :
  length a = length b -> limbs24 a -> limbs24 b -> big_value a = big_value b -> a = b.
Proof.
  revert b; induction a as [| x a IH]; intros [| y b] Hl Ha Hb Hv; try discriminate; [reflexivity |].
  inversion Ha as [| ? ? Hx Ha']; inversion Hb as [| ? ? Hy Hb']; subst.
  cbn [big_value] in Hv. unfold BASEBITS in Hv.
  assert (x = y).
  { rewrite <- (Z.mod_small x (2 ^ 24)), <- (Z.mod_small y (2 ^ 24)) by lia.
    rewrite <- (Z.mod_add x (big_value a) (2 ^ 24)), <- (Z.mod_add y (big_value b) (2 ^ 24)) by lia.
    f_equal. lia. }
  subst. f_equal. apply IH; [cbn in Hl; lia | exact Ha' | exact Hb' | lia].
Qed.

Lemma fromBytes_spec (b : list Z) :
  length (fromBytes b) = Z.to_nat NLEN /\ limbs24 (fromBytes b) /\
  big_value (fromBytes b) = be_value (map (fun i => nth i b 0) (seq 0 (Z.to_nat MODBYTES))).
Proof.
  unfold fromBytes, frombytearray.
  destruct (frombytes_aux_spec (map (fun i => nth (i + 0) b 0) (seq 0 (Z.to_nat MODBYTES))) BIG_zero)
    as (H1 & H2 & H3).
  - reflexivity.
  - apply Forall_range_forallb. reflexivity.
  - rewrite length_map, length_seq. vm_compute. split; [discriminate | reflexivity].
  - split; [exact H1 |]. split; [exact H2 |]. rewrite H3.
    unfold be_value. f_equal; apply map_ext; intros i; rewrite Nat.add_0_r; reflexivity.
Qed.

Lemma comp_sgn (a b : BIG) :
  length a = length b -> limbs24 a -> limbs24 b ->
  comp a b = Z.sgn (big_value a - big_value b).
Proof.
  intros Hl Ha Hb. unfold comp.
  rewrite comp_rev_sgn, !rev_involutive.
  - reflexivity.
  - rewrite !length_rev. exact Hl.
  - exact (Forall_rev Ha).
  - exact (Forall_rev Hb).
Qed.

(** [BIG.fromBytes(b)] reads the first [MODBYTES] bytes of [b] (a missing
    byte as 0) as a big-endian integer, into a normalised BIG. *)
Theorem big_fromBytes_value (b : list Z) :
  length (fromBytes b) = Z.to_nat NLEN /\ limbs24 (fromBytes b) /\
  big_value (fromBytes b) = be_value (map (fun i => nth i b 0) (seq 0 (Z.to_nat MODBYTES))).
Proof. apply fromBytes_spec. Qed.

(** [BIG.toBytes] then [BIG.fromBytes] gives back every normalised BIG
    whose value fits in [MODBYTES] bytes. *)
Theorem big_toBytes_fromBytes (w : BIG) :
  length w = Z.to_nat NLEN -> limbs24 w -> big_value w < 2 ^ (8 * MODBYTES) ->
  fromBytes (toBytes w) = w.
Proof.
  intros Hl Hw Hv. unfold toBytes. rewrite norm_aux_0_limbs24 by exact Hw.
  destruct (tobytes_aux_spec (Z.to_nat MODBYTES) w [] Hw) as (T & -> & HTl & HTb & HTv).
  rewrite app_nil_r.
  destruct (fromBytes_spec T) as (H1 & H2 & H3).
  apply limbs24_unique; [congruence | exact H2 | exact Hw |].
  rewrite H3, <- HTl, map_nth_seq_id, HTv.
  pose proof (big_value_bounds _ Hw). apply Z.mod_small. change (8 * MODBYTES) with 256 in Hv.
  change (8 * Z.of_nat (Z.to_nat MODBYTES)) with 256. lia.
Qed.

Lemma big_toBytes_fromBytes_witness : fromBytes (toBytes CURVE_Pxa) = CURVE_Pxa.
Proof.
  apply big_toBytes_fromBytes; [reflexivity | apply Forall_range_forallb; reflexivity |].
  vm_compute. reflexivity.
Defined.

(** [ECP.fromBytes(b)] returns the point at infinity whenever the encoded
    [x] is at least [p], whenever the tag is [0x04] and the encoded [y] is
    at least [p], and whenever the tag is none of [0x02], [0x03], [0x04]. *)
Theorem ecp_fromBytes_rejects (setxi : BIG -> Z -> ECP.t) (b : list Z) :
  let xb := map (fun i => nth (i + 1) b 0) (seq 0 (Z.to_nat MODBYTES)) in
  let yb := map (fun i => nth (i + Z.to_nat MODBYTES + 1) b 0) (seq 0 (Z.to_nat MODBYTES)) in
  p <= be_value xb \/ (nth 0 b 0 = 4 /\ p <= be_value yb) \/
  (nth 0 b 0 <> 2 /\ nth 0 b 0 <> 3 /\ nth 0 b 0 <> 4) ->
  ECP.fromBytes setxi b = ECP.new.
Proof.
  intros xb yb H. unfold ECP.fromBytes. fold xb yb.
  assert (HM : length Modulus = Z.to_nat NLEN /\ limbs24 Modulus)
    by (split; [reflexivity | apply Forall_range_forallb; reflexivity]).
  destruct (fromBytes_spec xb) as (Hx1 & Hx2 & Hx3).
  destruct (fromBytes_spec yb) as (Hy1 & Hy2 & Hy3).
  assert (Hxv : big_value (fromBytes xb) = be_value xb).
  { rewrite Hx3. reflexivity. }
  assert (Hyv : big_value (fromBytes yb) = be_value yb).
  { rewrite Hy3. reflexivity. }
  rewrite (comp_sgn (fromBytes xb) Modulus) by (try apply HM; try assumption; rewrite Hx1; symmetry; apply HM).
  rewrite Hxv. fold p.
  destruct (Z.le_gt_cases p (be_value xb)) as [Hge | Hlt].
  - destruct (Z.sgn_spec (be_value xb - p)) as [[? ->] | [[? ->] | [? ->]]]; [reflexivity | reflexivity | lia].
  - assert (Hs : Z.sgn (be_value xb - p) = -1) by (apply Z.sgn_neg; lia). rewrite Hs. cbn [Z.geb Z.compare].
    destruct H as [H | [[H4 Hy] | (H2 & H3 & H4)]]; [lia | |].
    + rewrite H4. cbn [Z.eqb Pos.eqb].
      rewrite (comp_sgn (fromBytes yb) Modulus) by (try apply HM; try assumption; rewrite Hy1; symmetry; apply HM).
      rewrite Hyv. fold p.
      destruct (Z.sgn_spec (be_value yb - p)) as [[? ->] | [[? ->] | [? ->]]]; [reflexivity | reflexivity | lia].
    + apply Z.eqb_neq in H2, H3, H4. rewrite H4, H2, H3. reflexivity.
Qed.

Lemma ecp_fromBytes_rejects_witness :
  ECP.fromBytes (fun _ _ => ECP.new) (4 :: repeat 255 64) = ECP.new.
Proof.
  apply (ecp_fromBytes_rejects (fun _ _ => ECP.new) (4 :: repeat 255 64)).
  left. vm_compute. discriminate.
Defined.
